(** * Card loading for the language decks (src/lib/languages/load.ts)

    A shallow embedding of the loader module: the tag filter, the seeded
    shuffle it calls, the per-language fetch with its error handling, the
    creation of the two parallel decks, the full load, the single-card
    refresh, and the accessors of the stored decks and of the active
    language.

    Effects are modelled by a state-and-exception monad over a [World]
    that holds the Svelte store [languageData], the session storage, the
    active i18n locale, the error console, the persisted copy of the store
    and the faults of local storage and of the locale loader.  The
    network, [Math.random], the browser locale and the order in which the
    two fetches of a card creation settle are inputs, gathered in an
    [Env]. *)

From Stdlib Require Import Ascii String.
From stdpp Require Import gmap strings list fin_maps numbers.

Open Scope string_scope.
Open Scope list_scope.

(** ** Data model *)

(** Modelled from the spec: the [Tag] enumeration of [$lib/constants/tag]
    is not part of the sources at hand.  The spec describes a tag as an
    enumerated label with a sentinel "untagged" value; a TypeScript string
    enumeration is a set of strings at run time. *)
Definition Tag := string.
Definition UNTAGGED : Tag := "untagged".

(** Modelled from the spec: the [Language] enumeration of
    [$lib/languages/language] is not part of the sources at hand.  Its
    members [Language.FI] and [Language.EN] are used by the loader; their
    values are the locale codes that [registerLocales] registers. *)
Definition Language := string.
Definition FI : Language := "fi".
Definition EN : Language := "en".

(** [Object.values(Language)] *)
Definition Language_values : list Language := [FI; EN].

(** Modelled from the spec: the [Card] interface of [$lib/interfaces/card]
    is not part of the sources at hand; a card is "an entity with a list of
    tag identifiers and language-specific content". *)
Record Card := mkCard { tags : list Tag; content : string }.

#[global] Instance Card_eq_dec : EqDecision Card.
Proof. solve_decision. Defined.

(** ** The tag filter (load.ts, lines 74-85) *)

(** [Array.prototype.includes] on a list of tags. *)
Definition includes (l : list Tag) (t : Tag) : bool := bool_decide (t ∈ l).

(** [Array.prototype.some] *)
Definition some {A} (p : A → bool) (l : list A) : bool := existsb p l.

(** The arrow function of the first [cards.filter]. *)
Definition isIncluded (includedTags : list Tag) (card : Card) : bool :=
  some (λ tag, includes includedTags tag) (tags card)
  || (includes includedTags UNTAGGED && (length (tags card) =? 0)%nat).

(** The arrow function of the second [filter]. *)
Definition isNotExcluded (excludedTags : list Tag) (card : Card) : bool :=
  negb (some (λ tag, includes excludedTags tag) (tags card))
  && negb (includes excludedTags UNTAGGED && (length (tags card) =? 0)%nat).

Definition includedCards (includedTags : list Tag) (cards : list Card)
  : list Card :=
  List.filter (isIncluded includedTags) cards.

(** [filteredCards]: exclusion is applied to the result of inclusion. *)
Definition filterCards (includedTags excludedTags : list Tag)
    (cards : list Card) : list Card :=
  List.filter (isNotExcluded excludedTags) (includedCards includedTags cards).

(** The rule of the specification, in its own words: a card passes
    inclusion when it has a tag of the inclusion set or the inclusion set
    holds the sentinel and the card has no tag; it fails when the same
    holds for the exclusion set. *)
Definition matches (tagSet : list Tag) (card : Card) : Prop :=
  (∃ t, t ∈ tags card ∧ t ∈ tagSet) ∨ (UNTAGGED ∈ tagSet ∧ tags card = []).

Definition spec_keeps (includedTags excludedTags : list Tag) (card : Card)
  : Prop :=
  matches includedTags card ∧ ¬ matches excludedTags card.

(** ** The seeded shuffle ([$lib/utils/seed], called at load.ts line 87) *)

(** Modelled from the spec: the function [seededShuffle] of
    [$lib/utils/seed] is not part of the sources at hand.  The spec calls
    it "a seeded deterministic permutation: given a list and a numeric
    seed, produces a reordering such that the same seed and same input
    length always yield the same permutation".  A shuffler is therefore a
    type of seeds and, for each seed and length [n], an arrangement of the
    positions [0 .. n-1]; nothing else about it is assumed. *)
Class Shuffler := {
  Seed : Type;
  shuffle_order : Seed → nat → list nat;
  shuffle_order_perm : ∀ seed n, shuffle_order seed n ≡ₚ seq 0 n
}.

(** The elements of [l] at the positions [order], in that order. *)
Definition pick {A} (l : list A) (order : list nat) : list A :=
  omap (λ i, l !! i) order.

(** Modelled from the spec: [seededShuffle(array, seed)] arranges the list
    by the order that the seed gives for a list of its length. *)
Definition seededShuffle `{Shuffler} {A} (array : list A) (seed : Seed)
  : list A :=
  pick array (shuffle_order seed (length array)).

(** One shuffler, used to run the model on examples: a linear congruential
    generator drives an insertion shuffle (position [i] is inserted at a
    drawn place among the positions before it).  It stands for no
    particular implementation. *)
Definition lcg_next (x : N) : N := ((1103515245 * x + 12345) mod 2147483648)%N.

Fixpoint lcg_draw (seed : N) (i : nat) : N :=
  match i with
  | O => lcg_next seed
  | S i' => lcg_next (lcg_draw seed i')
  end.

Definition insert_at {A} (k : nat) (x : A) (l : list A) : list A :=
  take k l ++ x :: drop k l.

Fixpoint lcg_order (seed : N) (n : nat) : list nat :=
  match n with
  | O => []
  | S n' => insert_at (N.to_nat (lcg_draw seed n' mod N.of_nat (S n'))) n'
              (lcg_order seed n')
  end.

(** ** Arrays and numbers of the host language *)

(** [Number.MAX_SAFE_INTEGER] *)
Definition MAX_SAFE_INTEGER : N := 9007199254740991%N.

(** [array.slice(0, n)] for a count [n] that is a non-negative integer. *)
Fixpoint slice0 {A} (n : N) (l : list A) : list A :=
  match l with
  | [] => []
  | x :: l' => if (n =? 0)%N then [] else x :: slice0 (N.pred n) l'
  end.

(** A stored deck is a JavaScript array of cards.  A slot is [None] when
    the array has a hole there (it reads as [undefined], and is persisted
    as [null]). *)
Abbreviation Deck := (list (option Card)).

(** [array.length] *)
Definition array_length (cs : Deck) : N := N.of_nat (length cs).

(** The array indices are the integers from 0 to 2^32 - 2. *)
Definition MAX_ARRAY_INDEX : N := 4294967294%N.

Definition isArrayIndex (i : nat) : bool := (N.of_nat i <=? MAX_ARRAY_INDEX)%N.

(** [array[i] = v] for an index [i] that is a non-negative integer.  Inside
    the array the slot is overwritten (an array is shorter than 2^32, so a
    position inside it is an array index).  At or beyond its end, an array
    index makes the array grow to length [i + 1], the slots in between
    being holes; a larger integer is no array index: the assignment then
    sets a plain property of the object and leaves its elements and its
    length as they are. *)
Definition array_set (cs : Deck) (i : nat) (v : Card) : Deck :=
  if decide (i < length cs) then <[i := Some v]> cs
  else if isArrayIndex i
       then cs ++ replicate (i - length cs) None ++ [Some v]
       else cs.

(** [x || 0] on a number that is not NaN. *)
Definition or_zero (x : N) : N := if (x =? 0)%N then 0%N else x.

(** Truthiness of a string and of an array: only the empty string is
    falsy; every array, the empty one included, is truthy. *)
Definition truthy_string (s : string) : bool :=
  match s with EmptyString => false | _ => true end.

Definition truthy_array (cs : Deck) : bool := true.

(** ** The world: stores, storage and console *)

(** [interface LanguageData { cards?: Card[]; language: Language }] *)
Record LanguageData := mkLanguageData {
  cards : option Deck;
  language : Language
}.

(** [Record<Language, LanguageData>]: an object keyed by language, which
    may lack keys (the initial value is parsed from local storage, or is
    the empty object). *)
Abbreviation LanguageRecord := (gmap Language LanguageData).

(** - [languageData]: the value of the writable store;
    - [sessionStorage]: the session-scoped key-value storage;
    - [locale]: the value of the i18n [$locale] store;
    - [console]: the messages passed to [console.error], oldest first;
    - [localStorage]: the item "languageData" of local storage, given by
      the record whose JSON text it holds, if the item exists;
    - [isBrowser]: the constant of [$lib/constants/isBrowser], which decides
      whether the subscriber of lines 31-35 is installed;
    - [storageFault]: the error with which [localStorage.setItem] throws
      when asked to hold the text of a record (storage full or disabled),
      if it throws;
    - [localeFault]: the error with which [$locale.set] rejects for a
      locale code (the messages of the locale cannot be loaded), if it
      rejects. *)
Record World := mkWorld {
  languageData : LanguageRecord;
  sessionStorage : gmap string string;
  locale : option string;
  console : list string;
  localStorage : option LanguageRecord;
  isBrowser : bool;
  storageFault : LanguageRecord → option string;
  localeFault : string → option string
}.

(** A computation either returns or throws, and leaves a world behind in
    both cases.  [await] is sequencing. *)
Inductive Result (A : Type) : Type :=
  | Ok (a : A)
  | Throw (error : string).
Arguments Ok {A} a.
Arguments Throw {A} error.

Definition M (A : Type) : Type := World → Result A * World.

#[global] Instance M_ret : MRet M := λ A a w, (Ok a, w).

#[global] Instance M_bind : MBind M := λ A B k m w,
  match m w with
  | (Ok a, w') => k a w'
  | (Throw e, w') => (Throw e, w')
  end.

Definition throw {A} (e : string) : M A := λ w, (Throw e, w).

(** [try { body } catch (error) { handler }]: what the body did before it
    threw stays done. *)
Definition try_catch {A} (body : M A) (handler : string → M A) : M A :=
  λ w, match body w with
       | (Ok a, w') => (Ok a, w')
       | (Throw e, w') => handler e w'
       end.

(** [console.error(message, error)] *)
Definition console_error (message : string) : M unit :=
  λ w, (Ok (), mkWorld (languageData w) (sessionStorage w) (locale w)
                  (console w ++ [message]) (localStorage w) (isBrowser w)
                  (storageFault w) (localeFault w)).

(** [get(languageData)] *)
Definition languageData_get : M LanguageRecord :=
  λ w, (Ok (languageData w), w).

(** The subscriber of lines 31-35:
    [localStorage.setItem('languageData', JSON.stringify(value))]. *)
Definition persist (value : LanguageRecord) : M unit :=
  λ w, match storageFault w value with
       | Some error => (Throw error, w)
       | None =>
           (Ok (), mkWorld (languageData w) (sessionStorage w) (locale w)
                     (console w) (Some value) (isBrowser w) (storageFault w)
                     (localeFault w))
       end.

(** [languageData.set(value)]: the store takes the value, then runs its
    subscriber, in the browser; what the subscriber throws is thrown to
    the caller of [set], the store keeping the value. *)
Definition languageData_set (value : LanguageRecord) : M unit :=
  λ w, let w' := mkWorld value (sessionStorage w) (locale w) (console w)
                   (localStorage w) (isBrowser w) (storageFault w)
                   (localeFault w) in
       if isBrowser w then persist value w' else (Ok (), w').

(** [sessionStorage.getItem(key)] and [sessionStorage.setItem(key, value)] *)
Definition sessionStorage_getItem (key : string) : M (option string) :=
  λ w, (Ok (sessionStorage w !! key), w).

Definition sessionStorage_setItem (key value : string) : M unit :=
  λ w, (Ok (), mkWorld (languageData w) (<[key := value]> (sessionStorage w))
                  (locale w) (console w) (localStorage w) (isBrowser w)
                  (storageFault w) (localeFault w)).

(** [await $locale.set(localeCode)]: the locale store takes the code once
    the messages of the locale are there; when they cannot be loaded the
    promise rejects and the store keeps its value. *)
Definition locale_set (localeCode : string) : M unit :=
  λ w, match localeFault w localeCode with
       | Some error => (Throw error, w)
       | None =>
           (Ok (), mkWorld (languageData w) (sessionStorage w)
                     (Some localeCode) (console w) (localStorage w)
                     (isBrowser w) (storageFault w) (localeFault w))
       end.

(** [Promise.all([p1, p2])] on two running computations.  They run
    concurrently: the one that settles first has its effects first.  Each
    computation passed here acts on the world when its fetch has settled
    and at no other time, so the possible runs are the two orders;
    [firstFirst] tells whether the first computation settles first.  The
    result is the pair of the two values in the order of the array,
    whoever settled first, or the rejection that came first. *)
Definition Promise_all2 {A B} (firstFirst : bool) (p1 : M A) (p2 : M B)
  : M (A * B) :=
  λ w, if firstFirst then
         let '(r1, w1) := p1 w in
         let '(r2, w2) := p2 w1 in
         match r1, r2 with
         | Ok a, Ok b => (Ok (a, b), w2)
         | Throw e, _ => (Throw e, w2)
         | _, Throw e => (Throw e, w2)
         end
       else
         let '(r2, w2) := p2 w in
         let '(r1, w1) := p1 w2 in
         match r2, r1 with
         | Ok b, Ok a => (Ok (a, b), w1)
         | Throw e, _ => (Throw e, w1)
         | _, Throw e => (Throw e, w1)
         end.

(** ** The environment: network, random source, browser locale *)

(** What [fetch(getCardUrl(language))] followed by [response.json()] gives
    for a language: the fetch rejects, or the body is not JSON, or the
    document is parsed; a parsed document may lack the [cards] array. *)
Inductive Response : Type :=
  | FetchRejected (error : string)
  | JsonRejected (error : string)
  | JsonBody (cards : option (list Card)).

(** [fiSettlesFirst] tells which of the two fetches of a card creation
    settles first. *)
Record Env `{Shuffler} := mkEnv {
  respond : Language → Response;
  Math_random : Seed;
  localeFromNavigator : option string;
  fiSettlesFirst : bool
}.

(** ** The loader *)

Section Loader.
Context `{Shuffler} (env : Env).

(** The first three steps of the [try] block of [fetchAndFilterCards]
    (lines 69-74): fetching, parsing, and taking the [cards] array of the
    document.  Without that array the call [cards.filter] throws. *)
Definition fetch_cards (language : Language) : M (list Card) :=
  match respond env language with
  | FetchRejected error => throw error
  | JsonRejected error => throw error
  | JsonBody None => throw "TypeError: cards is undefined"
  | JsonBody (Some cards) => mret cards
  end.

(** [fetchAndFilterCards] (lines 62-92) *)
Definition fetchAndFilterCards (language : Language)
    (includedTags excludedTags : list Tag) (seed : Seed) : M (list Card) :=
  try_catch
    (cards ← fetch_cards language;
     let filteredCards := filterCards includedTags excludedTags cards in
     mret (seededShuffle filteredCards seed))
    (λ error,
       console_error ("Failed to fetch cards for language " +:+ language
                      +:+ ": " +:+ error);;
       mret []).

(** The object literal that [createCards] returns (lines 114-117). *)
Definition cardsRecord (cardAmount : N) (fiShuffledCards enShuffledCards
    : list Card) : LanguageRecord :=
  <[EN := mkLanguageData (Some (Some <$> slice0 cardAmount enShuffledCards))
            EN]>
    (<[FI := mkLanguageData
               (Some (Some <$> slice0 cardAmount fiShuffledCards)) FI]> ∅).

(** [createCards] (lines 101-122); [None] is [null]. *)
Definition createCards (cardAmount : N) (includedTags excludedTags
    : list Tag) : M (option LanguageRecord) :=
  try_catch
    (let seed := Math_random env in
     shuffled ← Promise_all2 (fiSettlesFirst env)
                  (fetchAndFilterCards FI includedTags excludedTags seed)
                  (fetchAndFilterCards EN includedTags excludedTags seed);
     mret (Some (cardsRecord cardAmount shuffled.1 shuffled.2)))
    (λ error,
       console_error ("Failed to create cards: " +:+ error);;
       mret None).

(** [Object.values(cardsData)] *)
Definition Object_values (r : LanguageRecord) : list LanguageData :=
  (map_to_list r).*2.

(** The minimum of lines 139-143. *)
Definition minimumLength (cardsData : LanguageRecord) : N :=
  or_zero
    (foldl (λ min length, N.min min length) MAX_SAFE_INTEGER
       (map (λ lang, from_option array_length 0%N (cards lang))
          (Object_values cardsData))).

(** The body of [loadCards] (lines 130-148) around its card-creation
    step. *)
Definition loadCards_with (create : M (option LanguageRecord)) : M N :=
  try_catch
    (cardsData ← create;
     match cardsData with
     | None => mret 0%N
     | Some cardsData =>
         languageData_set cardsData;;
         mret (minimumLength cardsData)
     end)
    (λ error,
       console_error ("Failed to preload languages: " +:+ error);;
       mret 0%N).

(** [loadCards] *)
Definition loadCards (includedTags excludedTags : list Tag) : M N :=
  loadCards_with (createCards MAX_SAFE_INTEGER includedTags excludedTags).

(** [newCardData[lang]?.cards?.[0]] *)
Definition firstCard (newCardData : LanguageRecord) (lang : Language)
  : option Card :=
  d ← newCardData !! lang; cs ← cards d; slot ← cs !! 0%nat; slot.

(** One turn of the loop of [loadSingleCard] (lines 172-181).  The
    assignment writes into the array that the store holds; the record
    stored afterwards carries that same array, so the deck of [lang]
    after the turn is the array after the assignment. *)
Definition refreshLanguage (cardIndex : nat) (newCardData : LanguageRecord)
    (updatedData : LanguageRecord) (lang : Language) : LanguageRecord :=
  let langData := updatedData !! lang in
  let newLangCard := firstCard newCardData lang in
  let langCards :=
    match langData ≫= cards, newLangCard with
    | Some cs, Some newLangCard => Some (array_set cs cardIndex newLangCard)
    | langCards, _ => langCards
    end in
  <[lang := mkLanguageData langCards lang]> updatedData.

(** The body of [loadSingleCard] (lines 156-187) around its
    card-creation step.  The test [if (!currentData) return] never fires:
    the store holds an object, and every object is truthy. *)
Definition loadSingleCard_with (create : M (option LanguageRecord))
    (cardIndex : nat) : M unit :=
  try_catch
    (currentData ← languageData_get;
     newCardData ← create;
     match newCardData with
     | None => mret ()
     | Some newCardData =>
         let updatedData :=
           foldl (refreshLanguage cardIndex newCardData) currentData
             Language_values in
         languageData_set updatedData
     end)
    (λ error, console_error ("Failed to load a single card: " +:+ error)).

(** [loadSingleCard] *)
Definition loadSingleCard (cardIndex : nat) (includedTags excludedTags
    : list Tag) : M unit :=
  loadSingleCard_with (createCards 1%N includedTags excludedTags) cardIndex.

(** [getStoredCards] (lines 194-196); [None] is [null]. *)
Definition getStoredCards (lang : Language) : M (option Deck) :=
  data ← languageData_get;
  mret (match data !! lang ≫= cards with
        | Some cs => if truthy_array cs then Some cs else None
        | None => None
        end).

(** [locale.split('-')[0]] *)
Fixpoint before_dash (s : string) : string :=
  match s with
  | EmptyString => EmptyString
  | String c s' => if Ascii.eqb c "-"%char then EmptyString
                   else String c (before_dash s')
  end.

(** [getStoredLanguage] (lines 202-212) *)
Definition getStoredLanguage : M Language :=
  storedLanguage ← sessionStorage_getItem "selectedLanguage";
  let detected :=
    match before_dash <$> localeFromNavigator env with
    | Some detectedLocale =>
        if bool_decide (detectedLocale ∈ Language_values)
        then detectedLocale else EN
    | None => EN
    end in
  match storedLanguage with
  | Some storedLanguage =>
      if truthy_string storedLanguage then mret storedLanguage
      else mret detected
  | None => mret detected
  end.

(** [setLanguage] (lines 218-226).  The argument is typed [Language]; at
    run time it is whatever string the caller passes. *)
Definition setLanguage (lang : string) : M unit :=
  let localeCode := lang in
  if truthy_string localeCode then
    sessionStorage_setItem "selectedLanguage" lang;;
    locale_set localeCode
  else
    console_error ("Unsupported language: " +:+ lang).

End Loader.

(** ** Vocabulary of the statements *)

(** The deck stored for a language in a record, if any. *)
Definition deckOf (r : LanguageRecord) (lang : Language) : option Deck :=
  r !! lang ≫= cards.

(** The world after more messages went to the console. *)
Definition logged (messages : list string) (w : World) : World :=
  mkWorld (languageData w) (sessionStorage w) (locale w)
    (console w ++ messages) (localStorage w) (isBrowser w) (storageFault w)
    (localeFault w).

(** The error, if any, with which writing a record to the store in a
    world ends: that of the subscriber, in the browser. *)
Definition writeError (w : World) (value : LanguageRecord) : option string :=
  if isBrowser w then storageFault w value else None.

(** The error, if any, that the fetch of a language ends in. *)
Definition fetchError `{Shuffler} (env : Env) (language : Language)
  : option string :=
  match respond env language with
  | FetchRejected error => Some error
  | JsonRejected error => Some error
  | JsonBody None => Some "TypeError: cards is undefined"
  | JsonBody (Some _) => None
  end.

(** The fetch or the parse of the document of a language fails. *)
Definition fetchFails `{Shuffler} (env : Env) (language : Language) : Prop :=
  match respond env language with
  | JsonBody (Some _) => False
  | _ => True
  end.

(** The message that [fetchAndFilterCards] logs for a failure. *)
Definition fetchMessage (language : Language) (error : string) : string :=
  "Failed to fetch cards for language " +:+ language +:+ ": " +:+ error.

Definition fetchMessages `{Shuffler} (env : Env) (language : Language)
  : list string :=
  match fetchError env language with
  | Some error => [fetchMessage language error]
  | None => []
  end.

(** The messages that a card creation logs, in the order in which the
    two fetches settle. *)
Definition createMessages `{Shuffler} (env : Env) : list string :=
  if fiSettlesFirst env
  then fetchMessages env FI ++ fetchMessages env EN
  else fetchMessages env EN ++ fetchMessages env FI.

(** The cards that a language contributes to a load: its document,
    filtered and shuffled, or nothing when its fetch fails. *)
Definition shuffledFor `{Shuffler} (env : Env) (incl excl : list Tag)
    (language : Language) : list Card :=
  match respond env language with
  | JsonBody (Some cards) =>
      seededShuffle (filterCards incl excl cards) (Math_random env)
  | _ => []
  end.

(** The cards of the document served for a language, none when its fetch
    fails. *)
Definition offeredCards `{Shuffler} (env : Env) (language : Language)
  : list Card :=
  match respond env language with
  | JsonBody (Some cards) => cards
  | _ => []
  end.

(** The cards of a language that pass the filter, none when its fetch
    fails. *)
Definition keptCards `{Shuffler} (env : Env) (incl excl : list Tag)
    (language : Language) : list Card :=
  filterCards incl excl (offeredCards env language).

(** The card that a single-card refresh obtains for a language. *)
Definition freshCard `{Shuffler} (env : Env) (incl excl : list Tag)
    (lang : Language) : option Card :=
  if bool_decide (lang ∈ Language_values)
  then head (shuffledFor env incl excl lang)
  else None.

(** The effect that the refresh is said to have on one deck: the index
    lies inside the deck, and the deck afterwards is the deck before with
    the slot at the index holding one of the cards offered for the
    language. *)
Definition replaced_one_at (i : nat) (offered : list Card)
    (before after : Deck) : Prop :=
  i < length before ∧ ∃ c, c ∈ offered ∧ after = <[i := Some c]> before.

(** ** Sample data *)

(** The sample shuffler packaged with the proof that its orders are
    arrangements of the positions. *)
#[global] Instance lcg_shuffler : Shuffler.
Proof.
  refine {| Seed := N; shuffle_order := lcg_order |}.
  intros seed n. induction n as [|n IH]; simpl lcg_order; [done|].
  unfold insert_at. rewrite <- Permutation_middle, take_drop, IH, seq_S.
  simpl. by rewrite <- Permutation_cons_append.
Defined.

Definition sample_fi : list Card :=
  [mkCard ["food"] "omena"; mkCard [] "talo"; mkCard ["travel"] "juna";
   mkCard ["food"; "travel"] "matkaruoka"; mkCard ["work"] "kokous"].

Definition sample_en : list Card :=
  [mkCard ["food"] "apple"; mkCard [] "house"; mkCard ["travel"] "train";
   mkCard ["food"; "travel"] "packed lunch"; mkCard ["work"] "meeting"].

(** A browser with an empty store, where storage and locales work. *)
Definition empty_world : World :=
  mkWorld ∅ ∅ None [] None true (λ _, None) (λ _, None).

(** The same browser with its local storage full. *)
Definition full_storage_world : World :=
  mkWorld ∅ ∅ None [] None true (λ _, Some "QuotaExceededError")
    (λ _, None).

(** Both documents are served. *)
Definition sample_env : Env :=
  mkEnv _
    (λ lang, if bool_decide (lang = FI) then JsonBody (Some sample_fi)
             else if bool_decide (lang = EN) then JsonBody (Some sample_en)
             else FetchRejected "404")
    42%N (Some "fi-FI") true.

(** The Finnish document is served, the English fetch is rejected. *)
Definition fi_only_env : Env :=
  mkEnv _
    (λ lang, if bool_decide (lang = FI) then JsonBody (Some sample_fi)
             else FetchRejected "NetworkError")
    42%N (Some "fi-FI") true.

(** No document can be fetched, and the English fetch is the first to
    fail. *)
Definition offline_env : Env :=
  mkEnv _ (λ _, FetchRejected "offline") 42%N None false.

(** A store whose decks differ in length: an empty Finnish deck next to
    two English cards. *)
Definition uneven_record : LanguageRecord :=
  <[EN := mkLanguageData
            (Some [Some (mkCard [] "house");
                   Some (mkCard ["travel"] "train")]) EN]>
    (<[FI := mkLanguageData (Some []) FI]> ∅).

Definition uneven_world : World :=
  mkWorld uneven_record ∅ None [] (Some uneven_record) true (λ _, None)
    (λ _, None).

(** A session in which Finnish is the active language. *)
Definition finnish_session : World :=
  mkWorld ∅ (<["selectedLanguage" := "fi"]> ∅) (Some "fi") [] None true
    (λ _, None) (λ _, None).


(** A card-creation step that ends in [null] after logging. *)
Definition failing_create : M (option LanguageRecord) :=
  try_catch (throw "TypeError")
    (λ error, console_error ("Failed to create cards: " +:+ error);;
              mret None).

(** ** Properties of the filter *)

Lemma includes_spec l t : includes l t = true ↔ t ∈ l.
Proof. unfold includes. apply bool_decide_eq_true. Qed.

Lemma some_includes_spec tagSet ts :
  some (λ tag, includes tagSet tag) ts = true ↔ ∃ t, t ∈ ts ∧ t ∈ tagSet.
Proof.
  unfold some. rewrite existsb_exists. split.
  - intros (t & Hin & Ht). exists t. split.
    + by apply list_elem_of_In.
    + by apply includes_spec.
  - intros (t & Hin & Ht). exists t. split.
    + by apply list_elem_of_In.
    + by apply includes_spec.
Qed.

Lemma no_tags_spec (card : Card) :
  (length (tags card) =? 0)%nat = true ↔ tags card = [].
Proof.
  rewrite Nat.eqb_eq. destruct (tags card); simpl; split; intros; done.
Qed.

Lemma matches_spec tagSet card :
  some (λ tag, includes tagSet tag) (tags card)
  || (includes tagSet UNTAGGED && (length (tags card) =? 0)%nat) = true
  ↔ matches tagSet card.
Proof.
  unfold matches.
  rewrite orb_true_iff, andb_true_iff, some_includes_spec, includes_spec,
    no_tags_spec.
  done.
Qed.

Lemma isIncluded_spec incl card :
  isIncluded incl card = true ↔ matches incl card.
Proof. apply matches_spec. Qed.

Lemma isNotExcluded_spec excl card :
  isNotExcluded excl card = true ↔ ¬ matches excl card.
Proof.
  unfold isNotExcluded. rewrite <- matches_spec.
  destruct (some _ _); destruct (includes _ _ && _); simpl; split;
    intros; try done; try (by intros ?); exfalso; auto.
Qed.

Lemma filterCards_single_pass incl excl cards :
  filterCards incl excl cards =
  List.filter (λ c, isIncluded incl c && isNotExcluded excl c) cards.
Proof.
  unfold filterCards, includedCards.
  induction cards as [|c cards IH]; simpl; [done|].
  destruct (isIncluded incl c); simpl; [|done].
  destruct (isNotExcluded excl c); simpl; by rewrite IH.
Qed.

Lemma elem_of_filterCards incl excl cards card :
  card ∈ filterCards incl excl cards
  ↔ card ∈ cards ∧ spec_keeps incl excl card.
Proof.
  unfold filterCards, includedCards, spec_keeps.
  rewrite !list_elem_of_In, !filter_In, isIncluded_spec, isNotExcluded_spec.
  tauto.
Qed.

Lemma matches_untagged tagSet card :
  tags card = [] → (matches tagSet card ↔ UNTAGGED ∈ tagSet).
Proof.
  intros Hnil. unfold matches. rewrite Hnil. split.
  - intros [(t & Ht & _)|[Hin _]]; [by apply not_elem_of_nil in Ht | done].
  - intros Hin. by right.
Qed.

(** C2: the filter keeps a card exactly when the card matches the
    inclusion set (a tag in it, or the set holds the untagged sentinel and
    the card has no tag) and does not match the exclusion set in the same
    sense; the kept cards stay in their order.  For a card without tags
    this reads: it passes inclusion exactly when the inclusion set holds
    the sentinel, and it is kept exactly when moreover the exclusion set
    does not hold it. *)
Theorem filterCards_keeps_iff (incl excl : list Tag) (cards : list Card) :
  (∀ card, card ∈ filterCards incl excl cards
           ↔ card ∈ cards ∧ spec_keeps incl excl card)
  ∧ filterCards incl excl cards
    = List.filter (λ c, isIncluded incl c && isNotExcluded excl c) cards
  ∧ (∀ card, tags card = [] →
       (card ∈ includedCards incl cards ↔ card ∈ cards ∧ UNTAGGED ∈ incl)
       ∧ (card ∈ filterCards incl excl cards
          ↔ card ∈ cards ∧ UNTAGGED ∈ incl ∧ UNTAGGED ∉ excl)).
Proof.
  split; [intros card; apply elem_of_filterCards|].
  split; [apply filterCards_single_pass|].
  intros card Hnil. split.
  - unfold includedCards.
    rewrite !list_elem_of_In, filter_In, isIncluded_spec,
      (matches_untagged incl card Hnil).
    rewrite !list_elem_of_In. tauto.
  - rewrite elem_of_filterCards. unfold spec_keeps.
    rewrite (matches_untagged incl card Hnil),
      (matches_untagged excl card Hnil).
    tauto.
Qed.

Lemma filter_filter_same {A} (p : A → bool) (l : list A) :
  List.filter p (List.filter p l) = List.filter p l.
Proof.
  induction l as [|x l IH]; simpl; [done|].
  destruct (p x) eqn:Hp; simpl; [|done].
  by rewrite Hp, IH.
Qed.

(** C8: filtering is idempotent: filtering the output of the filter again
    with the same inclusion and exclusion sets returns it unchanged. *)
Theorem filterCards_idempotent (incl excl : list Tag) (cards : list Card) :
  filterCards incl excl (filterCards incl excl cards)
  = filterCards incl excl cards.
Proof.
  rewrite !filterCards_single_pass. apply filter_filter_same.
Qed.

(** ** Properties of the shuffle *)

Lemma pick_cons {A} (x : A) l order :
  pick (x :: l) (S <$> order) = pick l order.
Proof.
  unfold pick. induction order as [|k order IH]; [done|].
  rewrite fmap_cons. cbn [omap list_omap]. by rewrite IH.
Qed.

Lemma pick_seq {A} (l : list A) : pick l (seq 0 (length l)) = l.
Proof.
  induction l as [|x l IH]; simpl; [done|].
  rewrite <- fmap_S_seq. unfold pick at 1.
  cbn [omap list_omap lookup list_lookup].
  fold (pick (x :: l) (S <$> seq 0 (length l))).
  by rewrite pick_cons, IH.
Qed.

Lemma pick_perm {A} (l : list A) order :
  order ≡ₚ seq 0 (length l) → pick l order ≡ₚ l.
Proof.
  intros Hp. unfold pick. rewrite Hp. fold (pick l (seq 0 (length l))).
  by rewrite pick_seq.
Qed.

Lemma order_in_range n order : order ≡ₚ seq 0 n → Forall (λ j, j < n) order.
Proof.
  intros Hp. rewrite Hp. apply List.Forall_forall. intros j Hj.
  apply in_seq in Hj. lia.
Qed.

Lemma pick_lookup {A} (l : list A) order i k :
  Forall (λ j, j < length l) order →
  order !! i = Some k → pick l order !! i = l !! k.
Proof.
  unfold pick. intros Hall. revert i.
  induction Hall as [|j order Hj Hall IH]; intros i Hi; [done|].
  apply lookup_lt_is_Some_2 in Hj as [x Hx].
  simpl. rewrite Hx. destruct i as [|i]; simpl in *.
  - by simplify_eq.
  - by apply IH.
Qed.

Lemma seededShuffle_perm `{Shuffler} {A} (l : list A) (seed : Seed) :
  seededShuffle l seed ≡ₚ l.
Proof. apply pick_perm, shuffle_order_perm. Qed.

Lemma seededShuffle_length `{Shuffler} {A} (l : list A) (seed : Seed) :
  length (seededShuffle l seed) = length l.
Proof. by rewrite seededShuffle_perm. Qed.

(** ** Properties of the host-language operations *)

Lemma slice0_take {A} (n : N) (l : list A) : slice0 n l = take (N.to_nat n) l.
Proof.
  revert n. induction l as [|x l IH]; intros n; simpl.
  - by rewrite take_nil.
  - destruct (N.eqb_spec n 0) as [->|Hn]; [done|].
    rewrite IH. replace (N.to_nat n) with (S (N.to_nat (N.pred n))) by lia.
    done.
Qed.

Lemma slice0_length_le {A} (n : N) (l : list A) :
  (N.of_nat (length (slice0 n l)) ≤ n)%N.
Proof. rewrite slice0_take, length_take. lia. Qed.

Lemma slice0_lookup {A} (n : N) (l : list A) (i : nat) :
  (N.of_nat i < n)%N → slice0 n l !! i = l !! i.
Proof. intros Hi. rewrite slice0_take. apply lookup_take_lt. lia. Qed.

Lemma slice0_one_head {A} (l : list A) : slice0 1 l !! 0 = head l.
Proof. by destruct l. Qed.

Lemma array_set_inside (cs : Deck) i c :
  i < length cs → array_set cs i c = <[i := Some c]> cs.
Proof. intros Hi. unfold array_set. by rewrite decide_True. Qed.

Lemma array_set_other (cs : Deck) i j c :
  j ≠ i → j < length cs → array_set cs i c !! j = cs !! j.
Proof.
  intros Hne Hj. unfold array_set. case_decide.
  - by apply list_lookup_insert_ne.
  - destruct (isArrayIndex i); [by apply lookup_app_l | done].
Qed.

Lemma array_set_length (cs : Deck) i c :
  isArrayIndex i = true →
  length (array_set cs i c) = length cs `max` S i.
Proof.
  intros Hindex. unfold array_set. rewrite Hindex. case_decide.
  - rewrite length_insert. lia.
  - rewrite !length_app, length_replicate. simpl. lia.
Qed.

Lemma array_set_at (cs : Deck) i c :
  isArrayIndex i = true → array_set cs i c !! i = Some (Some c).
Proof.
  intros Hindex. unfold array_set. rewrite Hindex. case_decide.
  - by apply list_lookup_insert_eq.
  - rewrite lookup_app_r by lia.
    rewrite lookup_app_r; rewrite length_replicate; [|lia].
    by replace (i - length cs - (i - length cs)) with 0 by lia.
Qed.

Lemma array_set_no_index (cs : Deck) (i : nat) (c : Card) :
  (length cs ≤ i)%nat → isArrayIndex i = false → array_set cs i c = cs.
Proof.
  intros Hi Hindex. unfold array_set. rewrite Hindex.
  rewrite decide_False; [done|lia].
Qed.

Lemma foldl_min_perm (l l' : list N) (a : N) :
  l ≡ₚ l' → foldl (λ min length, N.min min length) a l
            = foldl (λ min length, N.min min length) a l'.
Proof.
  intros Hp. revert a.
  induction Hp as [|x l l' _ IH|x y l|l l' l'' _ IH1 _ IH2]; intros a; simpl.
  - done.
  - apply IH.
  - f_equal. lia.
  - by rewrite IH1.
Qed.

Lemma logged_nil w : logged [] w = w.
Proof. destruct w. unfold logged. simpl. by rewrite app_nil_r. Qed.

Lemma logged_logged m1 m2 w : logged m2 (logged m1 w) = logged (m1 ++ m2) w.
Proof. unfold logged. simpl. by rewrite app_assoc. Qed.

(** ** The store write *)

Lemma languageData_set_stores value w :
  languageData (languageData_set value w).2 = value.
Proof.
  unfold languageData_set, persist. cbn [storageFault].
  destruct (isBrowser w); [|done]. by destruct (storageFault w value).
Qed.

(** Writing the store touches neither session storage, nor the locale,
    nor the console. *)
Lemma languageData_set_frame value w :
  sessionStorage (languageData_set value w).2 = sessionStorage w
  ∧ locale (languageData_set value w).2 = locale w
  ∧ console (languageData_set value w).2 = console w.
Proof.
  unfold languageData_set, persist. cbn [storageFault].
  destruct (isBrowser w); [|done]. by destruct (storageFault w value).
Qed.

Lemma languageData_set_result value w :
  (languageData_set value w).1
  = match writeError w value with
    | Some error => Throw error
    | None => Ok ()
    end.
Proof.
  unfold languageData_set, persist, writeError. cbn [storageFault].
  destruct (isBrowser w); [|done]. by destruct (storageFault w value).
Qed.

(** ** The record that [createCards] builds *)

Lemma elem_of_Language_values lang :
  lang ∈ Language_values ↔ lang = FI ∨ lang = EN.
Proof.
  unfold Language_values. by rewrite elem_of_cons, list_elem_of_singleton.
Qed.

Lemma deckOf_cardsRecord_FI n fi en :
  deckOf (cardsRecord n fi en) FI = Some (Some <$> slice0 n fi).
Proof.
  unfold deckOf, cardsRecord.
  rewrite lookup_insert_ne by done. by rewrite lookup_insert_eq.
Qed.

Lemma deckOf_cardsRecord_EN n fi en :
  deckOf (cardsRecord n fi en) EN = Some (Some <$> slice0 n en).
Proof. unfold deckOf, cardsRecord. by rewrite lookup_insert_eq. Qed.

Lemma dom_cardsRecord n fi en : dom (cardsRecord n fi en) = {[FI; EN]}.
Proof.
  unfold cardsRecord. rewrite !dom_insert_L, dom_empty_L.
  rewrite (right_id_L ∅ (∪)). apply (comm_L (∪)).
Qed.

Lemma Object_values_cardsRecord n fi en :
  Object_values (cardsRecord n fi en)
  ≡ₚ [mkLanguageData (Some (Some <$> slice0 n en)) EN;
      mkLanguageData (Some (Some <$> slice0 n fi)) FI].
Proof.
  unfold Object_values, cardsRecord.
  rewrite map_to_list_insert.
  2:{ rewrite lookup_insert_ne by done. apply lookup_empty. }
  rewrite map_to_list_insert by apply lookup_empty.
  by rewrite map_to_list_empty.
Qed.

Lemma minimumLength_cardsRecord n fi en :
  (n ≤ MAX_SAFE_INTEGER)%N →
  minimumLength (cardsRecord n fi en)
  = N.min (array_length (Some <$> slice0 n fi))
          (array_length (Some <$> slice0 n en)).
Proof.
  intros Hn. unfold minimumLength.
  rewrite (foldl_min_perm _ _ _
             (Permutation_map _ (Object_values_cardsRecord n fi en))).
  cbn [foldl map from_option cards]. unfold array_length.
  rewrite !length_fmap.
  pose proof (slice0_length_le n fi). pose proof (slice0_length_le n en).
  unfold or_zero.
  match goal with
  | |- context [(?x =? 0)%N] => destruct (N.eqb_spec x 0)
  end; lia.
Qed.

(** ** Runs of the loader *)

Section Runs.
Context `{Shuffler} (env : Env).

Lemma fetchAndFilterCards_total language incl excl seed w :
  ∃ cs, fetchAndFilterCards env language incl excl seed w
        = (Ok cs, logged (fetchMessages env language) w).
Proof.
  unfold fetchAndFilterCards, try_catch, fetch_cards, fetchMessages,
    fetchError.
  destruct (respond env language) as [e|e|[cs|]]; simpl.
  - by exists [].
  - by exists [].
  - eexists. by rewrite logged_nil.
  - by exists [].
Qed.

Lemma fetchAndFilterCards_run language incl excl w :
  fetchAndFilterCards env language incl excl (Math_random env) w
  = (Ok (shuffledFor env incl excl language),
     logged (fetchMessages env language) w).
Proof.
  unfold fetchAndFilterCards, try_catch, fetch_cards, fetchMessages,
    fetchError, shuffledFor.
  destruct (respond env language) as [e|e|[cs|]]; simpl; try done.
  by rewrite logged_nil.
Qed.

Lemma shuffledFor_fails incl excl language :
  fetchFails env language → shuffledFor env incl excl language = [].
Proof.
  unfold fetchFails, shuffledFor.
  by destruct (respond env language) as [e|e|[cs|]].
Qed.

(** The card-creation step of this module always returns a record, and
    leaves the store alone. *)
Lemma createCards_run cardAmount incl excl w :
  createCards env cardAmount incl excl w
  = (Ok (Some (cardsRecord cardAmount (shuffledFor env incl excl FI)
                 (shuffledFor env incl excl EN))),
     logged (createMessages env) w).
Proof.
  unfold createCards, try_catch, Promise_all2, createMessages, mbind, M_bind.
  destruct (fiSettlesFirst env);
    rewrite !fetchAndFilterCards_run, logged_logged; done.
Qed.

(** The full load, as one store write after the card creation. *)
Lemma loadCards_run incl excl w :
  loadCards env incl excl w
  = match languageData_set
            (cardsRecord MAX_SAFE_INTEGER (shuffledFor env incl excl FI)
               (shuffledFor env incl excl EN))
            (logged (createMessages env) w) with
    | (Ok _, w') =>
        (Ok (N.min
               (array_length (Some <$> slice0 MAX_SAFE_INTEGER
                                         (shuffledFor env incl excl FI)))
               (array_length (Some <$> slice0 MAX_SAFE_INTEGER
                                         (shuffledFor env incl excl EN)))),
         w')
    | (Throw error, w') =>
        (Ok 0%N, logged ["Failed to preload languages: " +:+ error] w')
    end.
Proof.
  unfold loadCards, loadCards_with, try_catch, mbind, M_bind.
  rewrite createCards_run.
  destruct (languageData_set _ _) as [[[]|error] w']; [|done].
  unfold mret, M_ret. by rewrite minimumLength_cardsRecord.
Qed.

Lemma languageData_loadCards incl excl w :
  languageData (loadCards env incl excl w).2
  = cardsRecord MAX_SAFE_INTEGER (shuffledFor env incl excl FI)
      (shuffledFor env incl excl EN).
Proof.
  rewrite loadCards_run.
  match goal with
  | |- context [languageData_set ?r ?w1] =>
      pose proof (languageData_set_stores r w1) as Hstored;
      destruct (languageData_set r w1) as [[[]|error] w']
  end; exact Hstored.
Qed.

Lemma loadCards_result_written incl excl w :
  writeError w (cardsRecord MAX_SAFE_INTEGER (shuffledFor env incl excl FI)
                  (shuffledFor env incl excl EN)) = None →
  (loadCards env incl excl w).1
  = Ok (N.min
          (array_length (Some <$> slice0 MAX_SAFE_INTEGER
                                    (shuffledFor env incl excl FI)))
          (array_length (Some <$> slice0 MAX_SAFE_INTEGER
                                    (shuffledFor env incl excl EN)))).
Proof.
  intros Hwrite. rewrite loadCards_run.
  match goal with
  | |- context [languageData_set ?r ?w1] =>
      pose proof (languageData_set_result r w1) as Hresult;
      change (writeError w1 r) with (writeError w r) in Hresult;
      rewrite Hwrite in Hresult;
      destruct (languageData_set r w1) as [[[]|error] w2]
  end; [done|]. cbn [fst] in Hresult. done.
Qed.

Lemma loadCards_frame incl excl w :
  sessionStorage (loadCards env incl excl w).2 = sessionStorage w
  ∧ locale (loadCards env incl excl w).2 = locale w.
Proof.
  rewrite loadCards_run.
  match goal with
  | |- context [languageData_set ?r ?w1] =>
      destruct (languageData_set_frame r w1) as (Hsession & Hlocale & _);
      destruct (languageData_set r w1) as [[[]|error] w2]
  end; by split.
Qed.

(** The count that a full load returns is the minimum of the two deck
    lengths, or 0. *)
Lemma loadCards_result incl excl w n :
  (loadCards env incl excl w).1 = Ok n →
  n = N.min
        (array_length (Some <$> slice0 MAX_SAFE_INTEGER
                                  (shuffledFor env incl excl FI)))
        (array_length (Some <$> slice0 MAX_SAFE_INTEGER
                                  (shuffledFor env incl excl EN)))
  ∨ n = 0%N.
Proof.
  rewrite loadCards_run.
  destruct (languageData_set _ _) as [[[]|error] w']; cbn [fst];
    intros [= <-]; [by left | by right].
Qed.

(** The refresh, as one store write after the card creation. *)
Lemma loadSingleCard_run i incl excl w :
  loadSingleCard env i incl excl w
  = match languageData_set
            (foldl (refreshLanguage i
                      (cardsRecord 1 (shuffledFor env incl excl FI)
                         (shuffledFor env incl excl EN)))
               (languageData w) Language_values)
            (logged (createMessages env) w) with
    | (Ok _, w') => (Ok (), w')
    | (Throw error, w') =>
        (Ok (), logged ["Failed to load a single card: " +:+ error] w')
    end.
Proof.
  unfold loadSingleCard, loadSingleCard_with, try_catch, languageData_get.
  unfold mbind, M_bind. rewrite createCards_run.
  by destruct (languageData_set _ _) as [[[]|error] w'].
Qed.

Lemma languageData_loadSingleCard i incl excl w :
  languageData (loadSingleCard env i incl excl w).2
  = foldl (refreshLanguage i
             (cardsRecord 1 (shuffledFor env incl excl FI)
                (shuffledFor env incl excl EN)))
      (languageData w) Language_values.
Proof.
  rewrite loadSingleCard_run.
  match goal with
  | |- context [languageData_set ?r ?w1] =>
      pose proof (languageData_set_stores r w1) as Hstored;
      destruct (languageData_set r w1) as [[[]|error] w']
  end; exact Hstored.
Qed.
End Runs.

(** ** The parallel decks *)

Section Claims.
Context `{Shuffler} (env : Env).

(** C1: for any seed, any inclusion and exclusion sets and any two
    per-language card lists whose filtered lists have the same length,
    the two decks that card creation produces (filter, then shuffle with
    the shared seed, then truncate to the requested amount) are arranged
    by one and the same order of positions: if that order puts position
    [k] of the filtered lists at index [i], then index [i] of the Finnish
    deck holds the [k]-th filtered Finnish card and index [i] of the
    English deck holds the [k]-th filtered English card. *)
Theorem createCards_same_order (cardAmount : N) (incl excl : list Tag)
    (fiCards enCards : list Card) (w : World) :
  respond env FI = JsonBody (Some fiCards) →
  respond env EN = JsonBody (Some enCards) →
  length (filterCards incl excl fiCards)
  = length (filterCards incl excl enCards) →
  ∃ (order : list nat) (r : LanguageRecord) (fiDeck enDeck : Deck),
    order ≡ₚ seq 0 (length (filterCards incl excl fiCards))
    ∧ createCards env cardAmount incl excl w = (Ok (Some r), w)
    ∧ deckOf r FI = Some fiDeck
    ∧ deckOf r EN = Some enDeck
    ∧ fiDeck
      = Some <$> slice0 cardAmount
                   (pick (filterCards incl excl fiCards) order)
    ∧ enDeck
      = Some <$> slice0 cardAmount
                   (pick (filterCards incl excl enCards) order)
    ∧ ∀ i k, (N.of_nat i < cardAmount)%N → order !! i = Some k →
        ∃ fiCard enCard,
          filterCards incl excl fiCards !! k = Some fiCard
          ∧ filterCards incl excl enCards !! k = Some enCard
          ∧ fiDeck !! i = Some (Some fiCard)
          ∧ enDeck !! i = Some (Some enCard).
Proof.
  intros Hfi Hen Hlen.
  set (ffi := filterCards incl excl fiCards) in *.
  set (fen := filterCards incl excl enCards) in *.
  set (order := shuffle_order (Math_random env) (length ffi)).
  assert (Hperm : order ≡ₚ seq 0 (length ffi)) by apply shuffle_order_perm.
  assert (Hsfi : shuffledFor env incl excl FI = pick ffi order).
  { unfold shuffledFor. by rewrite Hfi. }
  assert (Hsen : shuffledFor env incl excl EN = pick fen order).
  { unfold shuffledFor. rewrite Hen. unfold seededShuffle, order.
    by rewrite Hlen. }
  exists order, (cardsRecord cardAmount (pick ffi order) (pick fen order)).
  eexists _, _.
  split; [done|]. split.
  { rewrite createCards_run, Hsfi, Hsen.
    unfold createMessages, fetchMessages, fetchError.
    rewrite Hfi, Hen. destruct (fiSettlesFirst env); simpl;
      by rewrite logged_nil. }
  split; [apply deckOf_cardsRecord_FI|].
  split; [apply deckOf_cardsRecord_EN|].
  split; [done|]. split; [done|].
  intros i k Hi Hk.
  assert (Hk' : k < length ffi).
  { apply order_in_range in Hperm.
    eapply Forall_lookup_1 in Hperm; [|exact Hk]. done. }
  destruct (lookup_lt_is_Some_2 ffi k Hk') as [fiCard HfiCard].
  destruct (lookup_lt_is_Some_2 fen k) as [enCard HenCard]; [lia|].
  exists fiCard, enCard. split; [done|]. split; [done|].
  rewrite !list_lookup_fmap, !slice0_lookup by done.
  rewrite (pick_lookup ffi order i k), (pick_lookup fen order i k);
    try done.
  - by rewrite HfiCard, HenCard.
  - rewrite <- Hlen. by apply order_in_range.
  - by apply order_in_range.
Qed.

(** C5: the per-language fetch-and-filter operation never throws, and
    when the fetch or the parse of the language's document fails it
    returns the empty list, the failure being written to the error
    console and nothing else in the world being touched. *)
Theorem fetchAndFilterCards_never_throws (language : Language)
    (incl excl : list Tag) (seed : Seed) (w : World) :
  (∃ cs w', fetchAndFilterCards env language incl excl seed w = (Ok cs, w'))
  ∧ (fetchFails env language →
     ∃ error,
       fetchError env language = Some error
       ∧ fetchAndFilterCards env language incl excl seed w
         = (Ok [], logged [fetchMessage language error] w)).
Proof.
  split.
  - destruct (fetchAndFilterCards_total env language incl excl seed w)
      as [cs Hcs]. eauto.
  - unfold fetchFails, fetchError, fetchAndFilterCards, try_catch,
      fetch_cards.
    destruct (respond env language) as [e|e|[cs|]]; simpl;
      intros Hf; try done; eexists; split; done.
Qed.

(** C4, as amended: the full load stores the decks it has created for the
    two languages and, when writing the store does not throw, returns the
    minimum of their lengths.  When the write throws (the subscriber
    cannot persist the store), the decks are in the store all the same,
    the error is logged and the load returns 0.  When the fetch of either
    language fails, that language's deck is empty and the load returns 0,
    whatever the other language yields. *)
Theorem loadCards_minimum (incl excl : list Tag) (w : World) :
  ∃ (r : LanguageRecord) (fiDeck enDeck : Deck) (w' : World),
    createCards env MAX_SAFE_INTEGER incl excl w = (Ok (Some r), w')
    ∧ dom r = {[FI; EN]}
    ∧ deckOf r FI = Some fiDeck
    ∧ deckOf r EN = Some enDeck
    ∧ languageData (loadCards env incl excl w).2 = r
    ∧ (writeError w r = None →
       loadCards env incl excl w
       = (Ok (N.min (array_length fiDeck) (array_length enDeck)),
          (languageData_set r w').2))
    ∧ (∀ error, writeError w r = Some error →
       loadCards env incl excl w
       = (Ok 0%N,
          logged ["Failed to preload languages: " +:+ error]
            (languageData_set r w').2))
    ∧ (fetchFails env FI ∨ fetchFails env EN →
       (fetchFails env FI → fiDeck = [])
       ∧ (fetchFails env EN → enDeck = [])
       ∧ (loadCards env incl excl w).1 = Ok 0%N).
Proof.
  eexists _, _, _, _.
  split; [apply createCards_run|].
  split; [apply dom_cardsRecord|].
  split; [apply deckOf_cardsRecord_FI|].
  split; [apply deckOf_cardsRecord_EN|].
  split; [apply languageData_loadCards|].
  rewrite loadCards_run.
  match goal with
  | |- context [languageData_set ?r ?w1] =>
      pose proof (languageData_set_result r w1) as Hresult;
      change (writeError w1 r) with (writeError w r) in Hresult;
      destruct (languageData_set r w1) as [[[]|error] w2]
  end; cbn [fst snd] in *.
  - split; [done|]. split.
    { intros error Herror. by rewrite Herror in Hresult. }
    intros Hfail.
    split; [intros Hf; by rewrite (shuffledFor_fails env _ _ FI Hf)|].
    split; [intros Hf; by rewrite (shuffledFor_fails env _ _ EN Hf)|].
    f_equal.
    destruct Hfail as [Hf|Hf]; rewrite (shuffledFor_fails env _ _ _ Hf);
      unfold array_length; simpl; lia.
  - split.
    { intros Hnone. by rewrite Hnone in Hresult. }
    split.
    { intros error' Herror. rewrite Herror in Hresult. by simplify_eq. }
    intros Hfail.
    split; [intros Hf; by rewrite (shuffledFor_fails env _ _ FI Hf)|].
    split; [intros Hf; by rewrite (shuffledFor_fails env _ _ EN Hf)|].
    done.
Qed.
End Claims.

Lemma createCards_same_order_witness :
  respond sample_env FI = JsonBody (Some sample_fi)
  ∧ respond sample_env EN = JsonBody (Some sample_en)
  ∧ length (filterCards ["food"; UNTAGGED] ["work"] sample_fi)
    = length (filterCards ["food"; UNTAGGED] ["work"] sample_en)
  ∧ ∃ (order : list nat) (r : LanguageRecord),
      order ≡ₚ seq 0 3
      ∧ createCards sample_env 2 ["food"; UNTAGGED] ["work"] empty_world
        = (Ok (Some r), empty_world).
Proof.
  split; [reflexivity|]. split; [reflexivity|]. split; [reflexivity|].
  destruct (createCards_same_order sample_env 2 ["food"; UNTAGGED] ["work"]
              sample_fi sample_en empty_world eq_refl eq_refl eq_refl)
    as (order & r & _ & _ & Hperm & Hrun & _).
  exists order, r. split; [exact Hperm | exact Hrun].
Defined.

Lemma fetchAndFilterCards_never_throws_witness :
  fetchFails fi_only_env EN
  ∧ fetchAndFilterCards fi_only_env EN ["food"] [] 42%N empty_world
    = (Ok [],
       logged ["Failed to fetch cards for language en: NetworkError"]
         empty_world).
Proof.
  split; [exact I|].
  destruct (fetchAndFilterCards_never_throws fi_only_env EN ["food"] [] 42%N
              empty_world) as [_ Hfails].
  destruct (Hfails I) as (error & Herror & Hrun).
  injection Herror as <-. exact Hrun.
Defined.

Lemma loadCards_minimum_witness :
  fetchFails fi_only_env EN
  ∧ length (shuffledFor fi_only_env ["food"] [] FI) = 2
  ∧ (loadCards fi_only_env ["food"] [] empty_world).1 = Ok 0%N.
Proof.
  split; [exact I|]. split; [reflexivity|].
  destruct (loadCards_minimum fi_only_env ["food"] [] empty_world)
    as (r & fiDeck & enDeck & w' & _ & _ & _ & _ & _ & _ & _ & Hfail).
  destruct (Hfail (or_intror I)) as (_ & _ & Hzero). exact Hzero.
Defined.

(** C4, as stated, fails when the store cannot be persisted: both
    documents are served and three cards of each pass the filter, so both
    stored decks have three cards and their minimum length is 3; local
    storage is full, the subscriber throws inside the store write, and the
    load logs the error and returns 0. *)
Lemma loadCards_zero_despite_cards :
  let result :=
    loadCards sample_env ["food"; UNTAGGED] ["work"] full_storage_world in
  result.1 = Ok 0%N
  ∧ (array_length <$> deckOf (languageData result.2) FI) = Some 3%N
  ∧ (array_length <$> deckOf (languageData result.2) EN) = Some 3%N
  ∧ N.min 3 3 ≠ 0%N
  ∧ console result.2 = ["Failed to preload languages: QuotaExceededError"].
Proof. cbv zeta. repeat split; try reflexivity. discriminate. Qed.

(** ** Failure of the card-creation step *)

(** C9: when the card-creation step of a full load returns no data, the
    load returns 0 and ends in the very world that the step left behind:
    it writes nothing itself, so the stored decks of every language are
    those from before the load. *)
Theorem loadCards_creation_failure (create : M (option LanguageRecord))
    (w w' : World) :
  create w = (Ok None, w') →
  languageData w' = languageData w →
  loadCards_with create w = (Ok 0%N, w')
  ∧ languageData (loadCards_with create w).2 = languageData w.
Proof.
  intros Hcreate Hstore.
  assert (Hrun : loadCards_with create w = (Ok 0%N, w')).
  { unfold loadCards_with, try_catch, mbind, M_bind. by rewrite Hcreate. }
  rewrite Hrun. by split.
Qed.

Lemma loadCards_creation_failure_witness :
  failing_create uneven_world
  = (Ok None, logged ["Failed to create cards: TypeError"] uneven_world)
  ∧ loadCards_with failing_create uneven_world
    = (Ok 0%N, logged ["Failed to create cards: TypeError"] uneven_world)
  ∧ languageData (loadCards_with failing_create uneven_world).2
    = languageData uneven_world.
Proof.
  split; [reflexivity|].
  exact (loadCards_creation_failure failing_create uneven_world
           (logged ["Failed to create cards: TypeError"] uneven_world)
           eq_refl eq_refl).
Defined.

(** A creation step that throws is caught by the load itself, with the same
    outcome. *)
Lemma loadCards_creation_throws (create : M (option LanguageRecord))
    (w w' : World) (error : string) :
  create w = (Throw error, w') →
  loadCards_with create w
  = (Ok 0%N, logged ["Failed to preload languages: " +:+ error] w').
Proof.
  intros Hcreate. unfold loadCards_with, try_catch, mbind, M_bind.
  by rewrite Hcreate.
Qed.

(** ** Reading the stored deck *)

(** C10: reading a language's stored deck leaves the world as it is and
    returns null exactly when the store has no deck for that language (no
    entry, or an entry without a card list); a stored card list is returned
    as it is, the empty list included. *)
Theorem getStoredCards_null_iff_no_deck (lang : Language) (w : World) :
  ∃ result : option Deck,
    getStoredCards lang w = (Ok result, w)
    ∧ (result = None
       ↔ languageData w !! lang = None
         ∨ ∃ d, languageData w !! lang = Some d ∧ cards d = None)
    ∧ (∀ d cs, languageData w !! lang = Some d → cards d = Some cs →
         result = Some cs)
    ∧ (∀ d, languageData w !! lang = Some d → cards d = Some [] →
         result = Some []).
Proof.
  exists (languageData w !! lang ≫= cards).
  split.
  { unfold getStoredCards, languageData_get, truthy_array.
    unfold mbind at 1. unfold M_bind, mret, M_ret.
    by destruct (languageData w !! lang ≫= cards). }
  destruct (languageData w !! lang) as [d|] eqn:Hd; simpl.
  - split; [|split].
    + split.
      * intros Hc. right. by exists d.
      * intros [?|(d' & ? & ?)]; [done|]. by simplify_eq.
    + intros d' cs ? ?. by simplify_eq.
    + intros d' ? ?. by simplify_eq.
  - split; [|split].
    + split; [by left|done].
    + intros d cs ?. done.
    + intros d ?. done.
Qed.

Lemma getStoredCards_null_iff_no_deck_witness :
  languageData uneven_world !! FI = Some (mkLanguageData (Some []) FI)
  ∧ getStoredCards FI uneven_world = (Ok (Some []), uneven_world).
Proof.
  split; [reflexivity|].
  destruct (getStoredCards_null_iff_no_deck FI uneven_world)
    as (result & Hrun & _ & _ & Hempty).
  rewrite Hrun.
  by rewrite (Hempty (mkLanguageData (Some []) FI) eq_refl eq_refl).
Defined.

(** ** The single-card refresh *)

Section Refresh.
Context `{Shuffler} (env : Env).

Lemma firstCard_cardsRecord incl excl lang :
  firstCard (cardsRecord 1 (shuffledFor env incl excl FI)
               (shuffledFor env incl excl EN)) lang
  = freshCard env incl excl lang.
Proof.
  unfold firstCard, freshCard, cardsRecord.
  destruct (decide (lang = EN)) as [->|Hen].
  { rewrite lookup_insert_eq. simpl.
    rewrite list_lookup_fmap, slice0_one_head.
    by destruct (head _). }
  rewrite lookup_insert_ne by done.
  destruct (decide (lang = FI)) as [->|Hfi].
  { rewrite lookup_insert_eq. simpl.
    rewrite list_lookup_fmap, slice0_one_head.
    by destruct (head _). }
  rewrite lookup_insert_ne, lookup_empty by done. simpl.
  rewrite bool_decide_eq_false_2; [done|].
  rewrite elem_of_Language_values. tauto.
Qed.

Lemma deckOf_refreshLanguage_eq i new r lang :
  deckOf (refreshLanguage i new r lang) lang
  = match deckOf r lang, firstCard new lang with
    | Some cs, Some c => Some (array_set cs i c)
    | deck, _ => deck
    end.
Proof. unfold deckOf, refreshLanguage. by rewrite lookup_insert_eq. Qed.

Lemma deckOf_refreshLanguage_ne i new r lang lang' :
  lang ≠ lang' →
  deckOf (refreshLanguage i new r lang) lang' = deckOf r lang'.
Proof.
  intros Hne. unfold deckOf, refreshLanguage. by rewrite lookup_insert_ne.
Qed.

(** The deck of every language after the refresh, in terms of the deck
    before and of the card obtained for the language. *)
Lemma deckOf_loadSingleCard i incl excl w lang :
  deckOf (languageData (loadSingleCard env i incl excl w).2) lang
  = match deckOf (languageData w) lang, freshCard env incl excl lang with
    | Some cs, Some c => Some (array_set cs i c)
    | deck, _ => deck
    end.
Proof.
  rewrite languageData_loadSingleCard.
  unfold Language_values. cbn [foldl].
  rewrite <- firstCard_cardsRecord.
  destruct (decide (lang = EN)) as [->|Hen].
  { rewrite deckOf_refreshLanguage_eq.
    by rewrite deckOf_refreshLanguage_ne by done. }
  rewrite deckOf_refreshLanguage_ne by done.
  destruct (decide (lang = FI)) as [->|Hfi].
  { by rewrite deckOf_refreshLanguage_eq. }
  rewrite deckOf_refreshLanguage_ne by done.
  rewrite firstCard_cardsRecord. unfold freshCard.
  rewrite bool_decide_eq_false_2.
  - by destruct (deckOf (languageData w) lang).
  - rewrite elem_of_Language_values. tauto.
Qed.

(** The card obtained for a language is one of the cards served for it,
    and one that the filter keeps. *)
Lemma freshCard_offered incl excl lang c :
  freshCard env incl excl lang = Some c →
  c ∈ offeredCards env lang ∧ spec_keeps incl excl c.
Proof.
  unfold freshCard, shuffledFor, offeredCards. case_bool_decide; [|done].
  destruct (respond env lang) as [e|e|[cs|]]; try done.
  intros Hhead. apply elem_of_filterCards.
  rewrite <- (seededShuffle_perm _ (Math_random env)).
  apply head_Some in Hhead as [rest ->]. apply list_elem_of_here.
Qed.

(** C6, as amended: the single-card refresh leaves every element at every
    other index of every language's stored deck unchanged.  In the deck
    of a language for which it obtains a card (the first card of that
    language's freshly filtered and shuffled list) and whose deck
    contains the index, exactly the element at the index is replaced,
    by that card.  The deck of a language for which no card is obtained
    (the fetch fails, or no card passes the filter) stays as it is. *)
Theorem loadSingleCard_effect (cardIndex : nat) (incl excl : list Tag)
    (w : World) (lang : Language) (before : Deck) :
  deckOf (languageData w) lang = Some before →
  ∃ after : Deck,
    deckOf (languageData (loadSingleCard env cardIndex incl excl w).2) lang
    = Some after
    ∧ (∀ j, j ≠ cardIndex → j < length before → after !! j = before !! j)
    ∧ (∀ c, freshCard env incl excl lang = Some c →
            cardIndex < length before →
            after = <[cardIndex := Some c]> before
            ∧ length after = length before
            ∧ after !! cardIndex = Some (Some c)
            ∧ replaced_one_at cardIndex (offeredCards env lang) before
                after)
    ∧ (freshCard env incl excl lang = None → after = before).
Proof.
  intros Hbefore. rewrite deckOf_loadSingleCard, Hbefore.
  destruct (freshCard env incl excl lang) as [c|] eqn:Hfresh.
  - exists (array_set before cardIndex c). split; [done|].
    split; [intros j ? ?; by apply array_set_other|].
    split; [|done].
    intros c' Hc' Hi. simplify_eq.
    rewrite array_set_inside by done.
    split; [done|]. split; [apply length_insert|].
    split; [by apply list_lookup_insert_eq|].
    split; [done|]. exists c'. split; [|done].
    by apply (freshCard_offered incl excl lang).
  - exists before. by repeat split.
Qed.
End Refresh.

Lemma loadSingleCard_effect_witness :
  deckOf (languageData uneven_world) EN
  = Some [Some (mkCard [] "house"); Some (mkCard ["travel"] "train")]
  ∧ deckOf (languageData
              (loadSingleCard sample_env 1 ["work"] [] uneven_world).2) EN
    = Some [Some (mkCard [] "house"); Some (mkCard ["work"] "meeting")].
Proof.
  split; [reflexivity|].
  destruct (loadSingleCard_effect sample_env 1 ["work"] [] uneven_world EN
              [Some (mkCard [] "house"); Some (mkCard ["travel"] "train")]
              eq_refl)
    as (after & Hafter & _ & Hreplace & _).
  destruct (Hreplace (mkCard ["work"] "meeting") eq_refl
              (Nat.lt_succ_diag_r 1)) as [-> _].
  exact Hafter.
Defined.

(** C6, as stated, fails: with an empty Finnish deck next to two English
    cards, a refresh at index 0 during which only the Finnish document can
    be fetched replaces no element of either deck.  The Finnish deck grows
    from no card to one, there being no element at index 0 to replace; the
    English deck, for which no card is obtained, keeps both its cards. *)
Lemma loadSingleCard_replaces_no_element :
  let w' := (loadSingleCard fi_only_env 0 ["work"] [] uneven_world).2 in
  let house := Some (mkCard [] "house") in
  let train := Some (mkCard ["travel"] "train") in
  let kokous := Some (mkCard ["work"] "kokous") in
  deckOf (languageData uneven_world) FI = Some []
  ∧ deckOf (languageData w') FI = Some [kokous]
  ∧ ¬ replaced_one_at 0 (offeredCards fi_only_env FI) [] [kokous]
  ∧ deckOf (languageData uneven_world) EN = Some [house; train]
  ∧ deckOf (languageData w') EN = Some [house; train]
  ∧ ¬ replaced_one_at 0 (offeredCards fi_only_env EN) [house; train]
        [house; train].
Proof.
  cbv zeta. split; [reflexivity|]. split; [reflexivity|].
  split.
  { intros [Hinside _]. simpl in Hinside. lia. }
  split; [reflexivity|]. split; [reflexivity|].
  intros (_ & c & Hc & _). by apply elem_of_nil in Hc.
Qed.

(** Beyond the end of a deck the assignment leaves holes behind it. *)
Example loadSingleCard_beyond_the_end :
  deckOf (languageData
            (loadSingleCard sample_env 3 ["work"] [] uneven_world).2) EN
  = Some [Some (mkCard [] "house"); Some (mkCard ["travel"] "train"); None;
          Some (mkCard ["work"] "meeting")].
Proof. reflexivity. Qed.

(** A language without a stored deck gets none from the refresh. *)
Lemma loadSingleCard_no_deck `{Shuffler} (env : Env) i incl excl w lang :
  deckOf (languageData w) lang = None →
  deckOf (languageData (loadSingleCard env i incl excl w).2) lang = None.
Proof. intros Hnone. by rewrite deckOf_loadSingleCard, Hnone. Qed.

(** ** The active language *)

Lemma setLanguage_nonempty lang w :
  lang ≠ EmptyString →
  localeFault w lang = None →
  setLanguage lang w
  = (Ok (), mkWorld (languageData w)
              (<["selectedLanguage" := lang]> (sessionStorage w))
              (Some lang) (console w) (localStorage w) (isBrowser w)
              (storageFault w) (localeFault w)).
Proof.
  intros Hl Hfault. unfold setLanguage, locale_set, sessionStorage_setItem.
  destruct lang; [done|]. cbn [truthy_string]. unfold mbind, M_bind.
  cbn [localeFault]. by rewrite Hfault.
Qed.



(** C7 says that the language setter, given a value outside the supported
    enumeration, keeps the active language and logs an error.  The code
    does so for the empty string only.  Here Finnish is active and the
    setter is given "de", which is not a supported language: the stored
    selection and the active locale both become "de", and nothing is
    logged. *)
Theorem setLanguage_accepts_unsupported :
("de" ∉ Language_values)
  ∧ sessionStorage finnish_session !! "selectedLanguage" = Some "fi"
  ∧ locale finnish_session = Some "fi"
  ∧ ∃ w', setLanguage "de" finnish_session = (Ok (), w')
          ∧ sessionStorage w' !! "selectedLanguage" = Some "de"
          ∧ locale w' = Some "de"
          ∧ console w' = [].
Proof.
  split.
  { rewrite elem_of_Language_values. by intros [?|?]. }
  split; [reflexivity|]. split; [reflexivity|].
  eexists. split; [by apply setLanguage_nonempty|].
  split; [apply lookup_insert_eq|]. by split.
Qed.

(** The reader of the stored language does check a detected locale against
    the enumeration: "de-DE" falls back to English. *)
Example getStoredLanguage_validates :
  getStoredLanguage
    (mkEnv _ (λ _, FetchRejected "offline") 0%N (Some "de-DE") true)
    empty_world
  = (Ok EN, empty_world).
Proof. reflexivity. Qed.

(** It returns a stored selection unchecked. *)
Example getStoredLanguage_stored_unchecked :
  (getStoredLanguage sample_env
     (setLanguage "de" finnish_session).2).1 = Ok "de".
Proof. reflexivity. Qed.

(** ** The model at work *)

Example filterCards_sample :
  filterCards ["food"; UNTAGGED] ["travel"] sample_en
  = [mkCard ["food"] "apple"; mkCard [] "house"].
Proof. reflexivity. Qed.

Example filterCards_untagged_excluded :
  filterCards ["food"; UNTAGGED] [UNTAGGED] sample_en
  = [mkCard ["food"] "apple"; mkCard ["food"; "travel"] "packed lunch"].
Proof. reflexivity. Qed.

Example shuffle_orders_sample :
  shuffle_order (42%N : @Seed lcg_shuffler) 5 = [4; 1; 0; 3; 2].
Proof. reflexivity. Qed.

Example parallel_decks_sample :
  shuffledFor sample_env ["food"; UNTAGGED] ["work"] FI
  = [mkCard [] "talo"; mkCard ["food"] "omena";
     mkCard ["food"; "travel"] "matkaruoka"]
  ∧ shuffledFor sample_env ["food"; UNTAGGED] ["work"] EN
    = [mkCard [] "house"; mkCard ["food"] "apple";
       mkCard ["food"; "travel"] "packed lunch"].
Proof. split; reflexivity. Qed.

Example loadCards_sample :
  (loadCards sample_env ["food"; UNTAGGED] ["work"] empty_world).1 = Ok 3%N.
Proof. reflexivity. Qed.

Example loadCards_one_language_down :
  let result := loadCards fi_only_env ["food"] [] empty_world in
  result.1 = Ok 0%N
  ∧ deckOf (languageData result.2) EN = Some []
  ∧ (length <$> deckOf (languageData result.2) FI) = Some 2
  ∧ console result.2
    = ["Failed to fetch cards for language en: NetworkError"].
Proof. cbv zeta. repeat split; reflexivity. Qed.

(** ** Further properties of the filter *)

Lemma filter_sublist {A} (p : A → bool) (l : list A) :
  List.filter p l `sublist_of` l.
Proof.
  induction l as [|x l IH]; simpl; [done|].
  destruct (p x); by constructor.
Qed.

Lemma filter_sublist_weaken {A} (p q : A → bool) (l : list A) :
  (∀ x, p x = true → q x = true) →
  List.filter p l `sublist_of` List.filter q l.
Proof.
  intros Hpq. induction l as [|x l IH]; simpl; [done|].
  destruct (p x) eqn:Hp.
  - rewrite (Hpq x Hp). by constructor.
  - destruct (q x); [by constructor | done].
Qed.

Lemma matches_mono tagSet tagSet' card :
  tagSet ⊆ tagSet' → matches tagSet card → matches tagSet' card.
Proof.
  intros Hsub [(t & Ht & Hin)|[Hin Hnil]].
  - left. exists t. split; [done|]. by apply Hsub.
  - right. split; [by apply Hsub | done].
Qed.

(** X1: an empty inclusion set selects no card at all, the untagged ones
    included. *)
Theorem filterCards_nothing_included (excl : list Tag) (cards : list Card) :
  filterCards [] excl cards = [].
Proof.
  assert (Hnone : ∀ card, isIncluded [] card = false).
  { intros card. apply not_true_is_false. rewrite isIncluded_spec.
    intros [(t & _ & Ht)|[Ht _]]; by apply elem_of_nil in Ht. }
  unfold filterCards, includedCards.
  induction cards as [|card cards IH]; simpl; [done|].
  by rewrite Hnone.
Qed.

(** X2: exclusion wins over inclusion: a card carrying a tag of the exclusion
    set is never kept, whatever the inclusion set holds; nor is a card
    without tags when the exclusion set holds the sentinel. *)
Theorem filterCards_exclusion_wins (incl excl : list Tag) (cards : list Card)
    (card : Card) :
  (∃ t, t ∈ tags card ∧ t ∈ excl) ∨ (tags card = [] ∧ UNTAGGED ∈ excl) →
  card ∉ filterCards incl excl cards.
Proof.
  intros Hexcl Hin. apply elem_of_filterCards in Hin as [_ [_ Hnot]].
  apply Hnot. unfold matches. tauto.
Qed.

Lemma filterCards_exclusion_wins_witness :
  mkCard ["food"; "travel"] "packed lunch"
  ∉ filterCards ["food"] ["travel"] sample_en.
Proof.
  apply filterCards_exclusion_wins. left. exists "travel".
  split.
  - apply list_elem_of_In. simpl. tauto.
  - apply list_elem_of_singleton. reflexivity.
Defined.

(** X3: the filter keeps the kept cards in the order of the document, adds
    none, and treats each card on its own: filtering a concatenation is
    concatenating the filtered parts. *)
Theorem filterCards_sublist_app (incl excl : list Tag) (cards more : list Card) :
  filterCards incl excl cards `sublist_of` cards
  ∧ (length (filterCards incl excl cards) ≤ length cards)%nat
  ∧ filterCards incl excl (cards ++ more)
    = filterCards incl excl cards ++ filterCards incl excl more.
Proof.
  assert (Hsub : filterCards incl excl cards `sublist_of` cards).
  { rewrite filterCards_single_pass. apply filter_sublist. }
  split; [done|]. split; [by apply sublist_length|].
  rewrite !filterCards_single_pass. apply List.filter_app.
Qed.

(** X4: widening the inclusion set or narrowing the exclusion set only adds
    cards: the smaller selection is a sublist of the larger one. *)
Theorem filterCards_monotone (incl incl' excl excl' : list Tag)
    (cards : list Card) :
  incl ⊆ incl' → excl' ⊆ excl →
  filterCards incl excl cards `sublist_of` filterCards incl' excl' cards.
Proof.
  intros Hincl Hexcl. rewrite !filterCards_single_pass.
  apply filter_sublist_weaken. intros card.
  rewrite !andb_true_iff, !isIncluded_spec, !isNotExcluded_spec.
  intros [Hin Hout]. split.
  - by apply (matches_mono incl).
  - intros Hm. apply Hout. by apply (matches_mono excl').
Qed.

Lemma filterCards_monotone_witness :
  filterCards ["food"] ["travel"; "work"] sample_en
  `sublist_of` filterCards ["food"; UNTAGGED] ["work"] sample_en.
Proof.
  apply filterCards_monotone.
  - intros t Ht. apply list_elem_of_singleton in Ht as ->.
    apply list_elem_of_In. simpl. tauto.
  - intros t Ht. apply list_elem_of_singleton in Ht as ->.
    apply list_elem_of_In. simpl. tauto.
Defined.

Lemma slice0_sublist {A} (n : N) (l : list A) : slice0 n l `sublist_of` l.
Proof. rewrite slice0_take. apply sublist_take. Qed.

Lemma slice0_length {A} (n : N) (l : list A) :
  N.of_nat (length (slice0 n l)) = N.min n (N.of_nat (length l)).
Proof. rewrite slice0_take, length_take. lia. Qed.

(** ** Further properties of card creation and of the full load *)

Lemma deckOf_cardsRecord_in n (f : Language → list Card) lang :
  lang ∈ Language_values →
  deckOf (cardsRecord n (f FI) (f EN)) lang = Some (Some <$> slice0 n (f lang)).
Proof.
  rewrite elem_of_Language_values. intros [->| ->].
  - apply deckOf_cardsRecord_FI.
  - apply deckOf_cardsRecord_EN.
Qed.

Lemma language_cardsRecord n fi en lang d :
  cardsRecord n fi en !! lang = Some d → language d = lang.
Proof.
  unfold cardsRecord. intros Hd.
  apply lookup_insert_Some in Hd as [[<- <-]|[_ Hd]]; [done|].
  apply lookup_insert_Some in Hd as [[<- <-]|[_ Hd]]; [done|].
  by rewrite lookup_empty in Hd.
Qed.

Lemma foldl_min_le_init (l : list N) (a : N) :
  (foldl (λ min length, N.min min length) a l ≤ a)%N.
Proof.
  revert a. induction l as [|x l IH]; intros a; simpl; [lia|].
  specialize (IH (N.min a x)). lia.
Qed.

Lemma foldl_min_le_elem (l : list N) (a x : N) :
  x ∈ l → (foldl (λ min length, N.min min length) a l ≤ x)%N.
Proof.
  revert a. induction l as [|y l IH]; intros a Hx; simpl.
  - by apply elem_of_nil in Hx.
  - apply elem_of_cons in Hx as [->|Hx].
    + pose proof (foldl_min_le_init l (N.min a y)). lia.
    + by apply IH.
Qed.

Lemma or_zero_id (x : N) : or_zero x = x.
Proof. unfold or_zero. destruct (N.eqb_spec x 0); congruence. Qed.

(** X5: the count of lines 139-143, for any record: it never exceeds the
    length of the deck of any entry, an entry without a card list counting
    as an empty deck; it never exceeds [Number.MAX_SAFE_INTEGER], which is
    its value on the record without entries. *)
Theorem minimumLength_lower_bound (r : LanguageRecord) :
  (∀ lang d, r !! lang = Some d →
     (minimumLength r ≤ from_option array_length 0 (cards d))%N)
  ∧ (minimumLength r ≤ MAX_SAFE_INTEGER)%N
  ∧ minimumLength (∅ : LanguageRecord) = MAX_SAFE_INTEGER.
Proof.
  unfold minimumLength. rewrite !or_zero_id. split; [|split].
  - intros lang d Hd. apply foldl_min_le_elem.
    apply list_elem_of_In.
    apply (in_map (λ entry, from_option array_length 0%N (cards entry)) _ d).
    apply list_elem_of_In. unfold Object_values. apply list_elem_of_fmap.
    exists (lang, d). split; [done|]. by apply elem_of_map_to_list.
  - apply foldl_min_le_init.
  - unfold Object_values. by rewrite map_to_list_empty.
Qed.

Section LoadExtras.
Context `{Shuffler} (env : Env).

Lemma shuffledFor_perm incl excl lang :
  shuffledFor env incl excl lang
  ≡ₚ filterCards incl excl (offeredCards env lang).
Proof.
  unfold shuffledFor, offeredCards.
  destruct (respond env lang) as [e|e|[cs|]]; try done.
  apply seededShuffle_perm.
Qed.

Lemma fetchMessages_nil_iff lang :
  fetchMessages env lang = [] ↔ ¬ fetchFails env lang.
Proof.
  unfold fetchMessages, fetchError, fetchFails.
  destruct (respond env lang) as [e|e|[cs|]]; simpl; split; intros Hn;
    try done; try tauto.
Qed.

Lemma createMessages_perm :
  createMessages env ≡ₚ fetchMessages env FI ++ fetchMessages env EN.
Proof.
  unfold createMessages. destruct (fiSettlesFirst env); [done|].
  apply Permutation_app_comm.
Qed.

(** X7: card creation never throws and never returns null: it always
    returns a record with exactly the two languages, each entry carrying
    its own language code.  It writes to the console only: one message for
    each language whose fetch fails, in the order in which the fetches
    settle. *)
Theorem createCards_always_record (cardAmount : N) (incl excl : list Tag)
    (w : World) :
  ∃ (r : LanguageRecord) (messages : list string),
    createCards env cardAmount incl excl w = (Ok (Some r), logged messages w)
    ∧ messages ≡ₚ fetchMessages env FI ++ fetchMessages env EN
    ∧ (messages = fetchMessages env FI ++ fetchMessages env EN
       ∨ messages = fetchMessages env EN ++ fetchMessages env FI)
    ∧ dom r = {[FI; EN]}
    ∧ (∀ lang d, r !! lang = Some d → language d = lang)
    ∧ (∀ lang, fetchMessages env lang = [] ↔ ¬ fetchFails env lang)
    ∧ (∀ lang, (length (fetchMessages env lang) ≤ 1)%nat).
Proof.
  eexists _, _. split; [apply createCards_run|].
  split; [apply createMessages_perm|].
  split; [unfold createMessages; destruct (fiSettlesFirst env); tauto|].
  split; [apply dom_cardsRecord|].
  split; [apply language_cardsRecord|].
  split; [apply fetchMessages_nil_iff|].
  intros lang. unfold fetchMessages. destruct (fetchError env lang); simpl; lia.
Qed.

(** X8: each created deck has as many cards as pass the filter in the document
    served for its language, cut down to the requested amount; the deck of
    a language whose fetch fails is empty. *)
Theorem createCards_deck_length (cardAmount : N) (incl excl : list Tag)
    (w : World) (lang : Language) :
  lang ∈ Language_values →
  ∃ (r : LanguageRecord) (w' : World) (deck : Deck),
    createCards env cardAmount incl excl w = (Ok (Some r), w')
    ∧ deckOf r lang = Some deck
    ∧ array_length deck
      = N.min cardAmount
          (N.of_nat (length (filterCards incl excl (offeredCards env lang))))
    ∧ (fetchFails env lang → deck = []).
Proof.
  intros Hlang. eexists _, _, _.
  split; [apply createCards_run|].
  split; [by apply (deckOf_cardsRecord_in _ (shuffledFor env incl excl))|].
  split.
  - unfold array_length.
    rewrite length_fmap, slice0_take, length_take, shuffledFor_perm. lia.
  - intros Hf. by rewrite shuffledFor_fails.
Qed.

(** X9: a created deck has no hole, and its cards are cards of the document
    served for its language that pass the filter, none of them more often
    than the document has it. *)
Theorem createCards_deck_cards (cardAmount : N) (incl excl : list Tag)
    (w : World) (lang : Language) :
  lang ∈ Language_values →
  ∃ (r : LanguageRecord) (w' : World) (deck : Deck) (kept : list Card),
    createCards env cardAmount incl excl w = (Ok (Some r), w')
    ∧ deckOf r lang = Some deck
    ∧ deck = Some <$> kept
    ∧ kept ⊆+ filterCards incl excl (offeredCards env lang)
    ∧ ∀ card, card ∈ kept →
        card ∈ offeredCards env lang ∧ spec_keeps incl excl card.
Proof.
  intros Hlang.
  assert (Hsub : slice0 cardAmount (shuffledFor env incl excl lang)
                 ⊆+ filterCards incl excl (offeredCards env lang)).
  { rewrite slice0_take, <- shuffledFor_perm.
    apply sublist_submseteq, sublist_take. }
  eexists _, _, _, _.
  split; [apply createCards_run|].
  split; [by apply (deckOf_cardsRecord_in _ (shuffledFor env incl excl))|].
  split; [done|]. split; [exact Hsub|].
  intros card Hcard. apply elem_of_filterCards.
  by apply (elem_of_submseteq _ _ _ Hcard).
Qed.
End LoadExtras.

Lemma getStoredCards_run lang w :
  getStoredCards lang w = (Ok (deckOf (languageData w) lang), w).
Proof.
  unfold getStoredCards, languageData_get, truthy_array, deckOf.
  unfold mbind at 1. unfold M_bind, mret, M_ret.
  by destruct (languageData w !! lang ≫= cards).
Qed.

Lemma MAX_SAFE_INTEGER_pos : (0 < MAX_SAFE_INTEGER)%N.
Proof. done. Qed.

Section LoadExtras2.
Context `{Shuffler} (env : Env).

Lemma array_length_sliced incl excl lang :
  array_length (Some <$> slice0 MAX_SAFE_INTEGER
                           (shuffledFor env incl excl lang))
  = N.min MAX_SAFE_INTEGER (N.of_nat (length (keptCards env incl excl lang))).
Proof.
  unfold array_length, keptCards.
  by rewrite length_fmap, slice0_length, shuffledFor_perm.
Qed.

(** X6: when the document of a language is served, fetching and filtering
    returns the cards that pass the filter, each once, in some order, and
    leaves the whole world, console included, as it was. *)
Theorem fetchAndFilterCards_success (language : Language)
    (incl excl : list Tag) (seed : Seed) (w : World) (cards : list Card) :
  respond env language = JsonBody (Some cards) →
  ∃ shuffled,
    fetchAndFilterCards env language incl excl seed w = (Ok shuffled, w)
    ∧ shuffled ≡ₚ filterCards incl excl cards
    ∧ ∀ card, card ∈ shuffled ↔ card ∈ cards ∧ spec_keeps incl excl card.
Proof.
  intros Hcards. exists (seededShuffle (filterCards incl excl cards) seed).
  split.
  { unfold fetchAndFilterCards, try_catch, fetch_cards. by rewrite Hcards. }
  split; [apply seededShuffle_perm|].
  intros card. by rewrite seededShuffle_perm, elem_of_filterCards.
Qed.

(** X10: when writing the store does not throw, the full load returns the
    smaller of the two numbers of cards that pass the filter (capped at
    [Number.MAX_SAFE_INTEGER]); it then returns 0 exactly when, for one of
    the two languages, no card passes the filter, as is the case when the
    fetch fails. *)
Theorem loadCards_count (incl excl : list Tag) (w : World) :
  (∀ value, writeError w value = None) →
  (loadCards env incl excl w).1
  = Ok (N.min MAX_SAFE_INTEGER
          (N.min (N.of_nat (length (keptCards env incl excl FI)))
                 (N.of_nat (length (keptCards env incl excl EN)))))
  ∧ ((loadCards env incl excl w).1 = Ok 0%N
     ↔ keptCards env incl excl FI = [] ∨ keptCards env incl excl EN = [])
  ∧ (∀ lang, fetchFails env lang → keptCards env incl excl lang = []).
Proof.
  intros Hwrite.
  assert (Hrun : (loadCards env incl excl w).1
    = Ok (N.min MAX_SAFE_INTEGER
            (N.min (N.of_nat (length (keptCards env incl excl FI)))
                   (N.of_nat (length (keptCards env incl excl EN)))))).
  { rewrite loadCards_result_written by apply Hwrite.
    rewrite !array_length_sliced. f_equal. lia. }
  split; [exact Hrun|]. split.
  - rewrite Hrun. pose proof MAX_SAFE_INTEGER_pos.
    rewrite <- !length_zero_iff_nil. split.
    + intros [= Hmin]. lia.
    + intros Hzero. f_equal. lia.
  - intros lang. unfold keptCards, offeredCards, fetchFails.
    by destruct (respond env lang) as [e|e|[cs|]].
Qed.

(** X11: after a full load that returned [n], every index below [n] is safe in
    the stored deck of both languages: reading the deck gives a list whose
    slot at that index holds a card, and one that passes the filter. *)
Theorem loadCards_then_getStoredCards (incl excl : list Tag) (w : World)
    (lang : Language) (n : N) (i : nat) :
  lang ∈ Language_values →
  (loadCards env incl excl w).1 = Ok n →
  (N.of_nat i < n)%N →
  ∃ (deck : Deck) (card : Card),
    getStoredCards lang (loadCards env incl excl w).2
    = (Ok (Some deck), (loadCards env incl excl w).2)
    ∧ deck !! i = Some (Some card)
    ∧ card ∈ offeredCards env lang
    ∧ spec_keeps incl excl card.
Proof.
  intros Hlang Hn Hi. rewrite getStoredCards_run, languageData_loadCards.
  rewrite (deckOf_cardsRecord_in _ (shuffledFor env incl excl)) by done.
  apply loadCards_result in Hn as [->| ->]; [|lia].
  assert (Hlen : i < length (slice0 MAX_SAFE_INTEGER
                               (shuffledFor env incl excl lang))).
  { revert Hi. unfold array_length. rewrite !length_fmap.
    apply elem_of_Language_values in Hlang as [->| ->];
      generalize
        (length (slice0 MAX_SAFE_INTEGER (shuffledFor env incl excl FI))),
        (length (slice0 MAX_SAFE_INTEGER (shuffledFor env incl excl EN)));
      lia. }
  destruct (lookup_lt_is_Some_2 _ _ Hlen) as [card Hcard].
  eexists _, card. split; [done|].
  split; [by rewrite list_lookup_fmap, Hcard|].
  apply elem_of_filterCards. rewrite <- shuffledFor_perm.
  apply (elem_of_submseteq (slice0 MAX_SAFE_INTEGER
                              (shuffledFor env incl excl lang))).
  - by apply list_elem_of_lookup_2 in Hcard.
  - apply sublist_submseteq, slice0_sublist.
Qed.

(** X12: the full load replaces the store wholesale: afterwards it holds
    entries for the two languages and nothing else, and what it holds does
    not depend on what was stored before.  Session storage and the active
    locale are not touched. *)
Theorem loadCards_overwrites (incl excl : list Tag) (w w0 : World) :
  dom (languageData (loadCards env incl excl w).2) = {[FI; EN]}
  ∧ languageData (loadCards env incl excl w).2
    = languageData (loadCards env incl excl w0).2
  ∧ sessionStorage (loadCards env incl excl w).2 = sessionStorage w
  ∧ locale (loadCards env incl excl w).2 = locale w
  ∧ (∀ lang, lang ∉ Language_values →
       languageData (loadCards env incl excl w).2 !! lang = None).
Proof.
  destruct (loadCards_frame env incl excl w) as [Hsession Hlocale].
  rewrite !languageData_loadCards.
  split; [apply dom_cardsRecord|]. split; [done|]. split; [done|].
  split; [done|].
  intros lang Hlang. apply not_elem_of_dom. rewrite dom_cardsRecord.
  intros Hin. apply Hlang, elem_of_Language_values.
  apply elem_of_union in Hin as [Hin|Hin]; apply elem_of_singleton in Hin;
    tauto.
Qed.
End LoadExtras2.

(** ** Further properties of the single-card refresh *)

Lemma array_set_beyond (cs : Deck) (i : nat) (c : Card) :
  (length cs ≤ i)%nat →
  array_set cs i c
  = if isArrayIndex i
    then cs ++ replicate (i - length cs) None ++ [Some c]
    else cs.
Proof. intros Hi. unfold array_set. rewrite decide_False; [done|lia]. Qed.

Lemma array_set_no_holes (cs : Deck) (i : nat) (c : Card) :
  Forall is_Some cs → (i ≤ length cs)%nat →
  Forall is_Some (array_set cs i c).
Proof.
  intros Hcs Hi. unfold array_set. case_decide.
  - by apply Forall_insert.
  - destruct (isArrayIndex i); [|done].
    replace (i - length cs) with 0 by lia. simpl.
    apply Forall_app. split; [done|]. by repeat constructor.
Qed.

Lemma lookup_refreshLanguage_eq i new r lang :
  ∃ d, refreshLanguage i new r lang !! lang = Some d ∧ language d = lang.
Proof. unfold refreshLanguage. eexists. by rewrite lookup_insert_eq. Qed.

Lemma lookup_refreshLanguage_ne i new r lang lang' :
  lang ≠ lang' → refreshLanguage i new r lang !! lang' = r !! lang'.
Proof. intros Hne. unfold refreshLanguage. by rewrite lookup_insert_ne. Qed.

Lemma dom_refreshLanguage i new r lang :
  dom (refreshLanguage i new r lang) = {[lang]} ∪ dom r.
Proof. unfold refreshLanguage. apply dom_insert_L. Qed.

Lemma foldl_refreshLanguage i new r :
  foldl (refreshLanguage i new) r Language_values
  = refreshLanguage i new (refreshLanguage i new r FI) EN.
Proof. done. Qed.

Section RefreshExtras.
Context `{Shuffler} (env : Env).

(** X13: the refresh never throws.  It leaves session storage and the
    active locale alone.  To the console it adds one message for each
    failed fetch, in the order in which the fetches settle, and after them
    the error of the store write when that throws.  In the store it leaves
    the entries of keys other than the two languages as they were, and
    makes sure both languages have an entry that carries its language
    code, even when the store had none. *)
Theorem loadSingleCard_frame (cardIndex : nat) (incl excl : list Tag)
    (w : World) :
  ∃ (w' : World) (fetchLog writeLog : list string),
    loadSingleCard env cardIndex incl excl w = (Ok (), w')
    ∧ sessionStorage w' = sessionStorage w
    ∧ locale w' = locale w
    ∧ console w' = console w ++ fetchLog ++ writeLog
    ∧ fetchLog ≡ₚ fetchMessages env FI ++ fetchMessages env EN
    ∧ writeLog = match writeError w (languageData w') with
                 | Some error => ["Failed to load a single card: " +:+ error]
                 | None => []
                 end
    ∧ dom (languageData w') = {[FI; EN]} ∪ dom (languageData w)
    ∧ (∀ lang, lang ∉ Language_values →
         languageData w' !! lang = languageData w !! lang)
    ∧ (∀ lang, lang ∈ Language_values →
         ∃ d, languageData w' !! lang = Some d ∧ language d = lang).
Proof.
  assert (Hshape : ∃ (w' : World) (writeLog : list string),
    loadSingleCard env cardIndex incl excl w = (Ok (), w')
    ∧ sessionStorage w' = sessionStorage w
    ∧ locale w' = locale w
    ∧ console w' = console w ++ createMessages env ++ writeLog
    ∧ writeLog = match writeError w (languageData w') with
                 | Some error => ["Failed to load a single card: " +:+ error]
                 | None => []
                 end).
  { rewrite loadSingleCard_run.
    match goal with
    | |- context [languageData_set ?r ?w1] =>
        destruct (languageData_set_frame r w1) as (Hsession & Hlocale & Hlog);
        pose proof (languageData_set_stores r w1) as Hstored;
        pose proof (languageData_set_result r w1) as Hresult;
        change (writeError w1 r) with (writeError w r) in Hresult;
        destruct (languageData_set r w1) as [[[]|error] w2]
    end; cbn [fst snd] in *.
    - exists w2, []. rewrite Hstored.
      destruct (writeError w _); [done|].
      rewrite app_nil_r. by repeat split.
    - exists (logged ["Failed to load a single card: " +:+ error] w2),
        ["Failed to load a single card: " +:+ error].
      cbn [logged sessionStorage locale console languageData].
      rewrite Hstored, Hlog.
      destruct (writeError w _) as [error'|]; [|done].
      injection Hresult as ->. cbn [logged console].
      rewrite <- app_assoc. by repeat split. }
  destruct Hshape as (w' & writeLog & Hrun & Hsession & Hlocale & Hlog & Hwrite).
  pose proof (languageData_loadSingleCard env cardIndex incl excl w) as Hstore.
  rewrite Hrun in Hstore. cbn [snd] in Hstore.
  exists w', (createMessages env), writeLog.
  split; [done|]. split; [done|]. split; [done|]. split; [done|].
  split; [apply createMessages_perm|]. split; [done|].
  rewrite Hstore, foldl_refreshLanguage.
  split.
  { rewrite !dom_refreshLanguage, (assoc_L (∪)).
    by rewrite (comm_L (∪) {[EN]}). }
  split.
  - intros lang Hlang. rewrite elem_of_Language_values in Hlang.
    rewrite !lookup_refreshLanguage_ne; [done| |]; intros <-; tauto.
  - intros lang Hlang. apply elem_of_Language_values in Hlang as [->| ->].
    + rewrite lookup_refreshLanguage_ne by done.
      apply lookup_refreshLanguage_eq.
    + apply lookup_refreshLanguage_eq.
Qed.

(** X14: whenever the refresh obtains a card for a language that has a
    stored deck, and the index is an array index, the slot at that index
    holds that card afterwards, be the index inside the deck or beyond its
    end; the card is one of the document served for the language and
    passes the filter; and the deck is as long as before, or reaches just
    up to the index. *)
Theorem loadSingleCard_slot (cardIndex : nat) (incl excl : list Tag)
    (w : World) (lang : Language) (before : Deck) (c : Card) :
  deckOf (languageData w) lang = Some before →
  freshCard env incl excl lang = Some c →
  isArrayIndex cardIndex = true →
  ∃ after : Deck,
    deckOf (languageData (loadSingleCard env cardIndex incl excl w).2) lang
    = Some after
    ∧ after !! cardIndex = Some (Some c)
    ∧ c ∈ offeredCards env lang
    ∧ spec_keeps incl excl c
    ∧ length after = length before `max` S cardIndex.
Proof.
  intros Hbefore Hfresh Hindex.
  rewrite deckOf_loadSingleCard, Hbefore, Hfresh.
  eexists. split; [done|]. split; [by apply array_set_at|].
  destruct (freshCard_offered env incl excl lang c Hfresh) as [Hin Hkeeps].
  split; [done|]. split; [done|]. by apply array_set_length.
Qed.

(** X15: a refresh at an index at or beyond the end of a deck does not
    replace anything.  When the index is an array index, it appends the
    new card, after as many holes as there are positions between the end
    of the deck and the index; when the index is too large to be an array
    index, the deck keeps its elements and its length. *)
Theorem loadSingleCard_beyond_end (cardIndex : nat) (incl excl : list Tag)
    (w : World) (lang : Language) (before : Deck) (c : Card) :
  deckOf (languageData w) lang = Some before →
  freshCard env incl excl lang = Some c →
  (length before ≤ cardIndex)%nat →
  deckOf (languageData (loadSingleCard env cardIndex incl excl w).2) lang
  = Some (if isArrayIndex cardIndex
          then before ++ replicate (cardIndex - length before) None
                      ++ [Some c]
          else before).
Proof.
  intros Hbefore Hfresh Hi.
  rewrite deckOf_loadSingleCard, Hbefore, Hfresh.
  by rewrite array_set_beyond.
Qed.

(** X16: a deck without holes stays without holes when the index of the refresh
    is inside the deck or just at its end. *)
Theorem loadSingleCard_no_new_holes (cardIndex : nat) (incl excl : list Tag)
    (w : World) (lang : Language) (before : Deck) :
  deckOf (languageData w) lang = Some before →
  Forall is_Some before →
  (cardIndex ≤ length before)%nat →
  ∃ after : Deck,
    deckOf (languageData (loadSingleCard env cardIndex incl excl w).2) lang
    = Some after
    ∧ Forall is_Some after.
Proof.
  intros Hbefore Hfull Hi. rewrite deckOf_loadSingleCard, Hbefore.
  destruct (freshCard env incl excl lang) as [c|].
  - eexists. split; [done|]. by apply array_set_no_holes.
  - by exists before.
Qed.
End RefreshExtras.

(** X17: when the card-creation step of a refresh returns no data or throws,
    the refresh returns normally and ends in the world that the step left
    behind, with at most one more console message: nothing is written to
    the store. *)
Theorem loadSingleCard_creation_failure (create : M (option LanguageRecord))
    (cardIndex : nat) (w w' : World)
    (outcome : Result (option LanguageRecord)) :
  create w = (outcome, w') →
  (∀ r, outcome ≠ Ok (Some r)) →
  ∃ messages,
    loadSingleCard_with create cardIndex w = (Ok (), logged messages w')
    ∧ (outcome = Ok None → messages = [])
    ∧ (∀ error, outcome = Throw error →
         messages = ["Failed to load a single card: " +:+ error])
    ∧ languageData (loadSingleCard_with create cardIndex w).2
      = languageData w'.
Proof.
  intros Hcreate Hnone.
  unfold loadSingleCard_with, try_catch, languageData_get, mbind, M_bind.
  rewrite Hcreate. destruct outcome as [[r|]|error].
  - by destruct (Hnone r).
  - exists []. by rewrite logged_nil.
  - eexists. split; [done|]. split; [done|].
    split; [by intros error' [= <-]|done].
Qed.

Lemma loadSingleCard_creation_failure_witness :
  languageData (loadSingleCard_with failing_create 0 uneven_world).2
  = languageData uneven_world.
Proof.
  destruct (loadSingleCard_creation_failure failing_create 0 uneven_world
              (logged ["Failed to create cards: TypeError"] uneven_world)
              (Ok None) eq_refl)
    as (messages & _ & _ & _ & Hstore); [by intros r|].
  exact Hstore.
Defined.

Section Composition.
Context `{Shuffler} (env env2 : Env).

(** X18: a refresh at an index below the count that a full load returned, with
    whatever tags and whatever the network serves by then, keeps the
    stored decks of both languages at their lengths and free of holes,
    and changes no slot other than the one at the index. *)
Theorem loadCards_then_loadSingleCard (incl excl incl2 excl2 : list Tag)
    (w : World) (lang : Language) (n : N) (i : nat) :
  lang ∈ Language_values →
  (loadCards env incl excl w).1 = Ok n →
  (N.of_nat i < n)%N →
  ∃ loaded refreshed : Deck,
    deckOf (languageData (loadCards env incl excl w).2) lang = Some loaded
    ∧ deckOf (languageData
                (loadSingleCard env2 i incl2 excl2
                   (loadCards env incl excl w).2).2) lang
      = Some refreshed
    ∧ length refreshed = length loaded
    ∧ Forall is_Some refreshed
    ∧ ∀ j, j ≠ i → refreshed !! j = loaded !! j.
Proof.
  intros Hlang Hn Hi. rewrite deckOf_loadSingleCard.
  rewrite languageData_loadCards.
  rewrite (deckOf_cardsRecord_in _ (shuffledFor env incl excl)) by done.
  apply loadCards_result in Hn as [->| ->]; [|lia].
  set (loaded := Some <$> slice0 MAX_SAFE_INTEGER
                            (shuffledFor env incl excl lang)).
  assert (Hlen : i < length loaded).
  { revert Hi. unfold loaded, array_length. rewrite !length_fmap.
    apply elem_of_Language_values in Hlang as [->| ->];
      generalize
        (length (slice0 MAX_SAFE_INTEGER (shuffledFor env incl excl FI))),
        (length (slice0 MAX_SAFE_INTEGER (shuffledFor env incl excl EN)));
      lia. }
  assert (Hfull : Forall is_Some loaded).
  { unfold loaded. apply Forall_fmap, Forall_true. by eexists. }
  exists loaded.
  destruct (freshCard env2 incl2 excl2 lang) as [c|].
  - exists (<[i := Some c]> loaded). split; [done|].
    split; [by rewrite array_set_inside|].
    split; [apply length_insert|].
    split; [by apply Forall_insert|].
    intros j Hj. by apply list_lookup_insert_ne.
  - exists loaded. by repeat split.
Qed.
End Composition.

(** ** Further properties of the active language *)

Lemma before_dash_supported lang region :
  lang ∈ Language_values → before_dash (lang +:+ "-" +:+ region) = lang.
Proof. intros [->| ->]%elem_of_Language_values; done. Qed.

Section LanguageExtras.
Context `{Shuffler} (env : Env).



(** X21: without a stored selection, a browser locale made of a supported
    language, a dash and a region is read as that language. *)
Theorem getStoredLanguage_region (lang region : string) (w : World) :
  lang ∈ Language_values →
  sessionStorage w !! "selectedLanguage" = None →
  localeFromNavigator env = Some (lang +:+ "-" +:+ region) →
  getStoredLanguage env w = (Ok lang, w).
Proof.
  intros Hlang Hstored Hnav.
  unfold getStoredLanguage, sessionStorage_getItem.
  unfold mbind at 1. unfold M_bind. rewrite Hstored, Hnav. simpl.
  rewrite before_dash_supported by done.
  by rewrite bool_decide_eq_true_2.
Qed.
End LanguageExtras.


Lemma FI_supported : FI ∈ Language_values.
Proof. apply elem_of_Language_values. by left. Qed.

Lemma EN_supported : EN ∈ Language_values.
Proof. apply elem_of_Language_values. by right. Qed.

Lemma createCards_deck_length_witness :
  FI ∈ Language_values
  ∧ ∃ (r : LanguageRecord) (deck : Deck),
      (createCards sample_env 2 ["food"; UNTAGGED] ["work"] empty_world).1
      = Ok (Some r)
      ∧ deckOf r FI = Some deck
      ∧ array_length deck = 2%N.
Proof.
  split; [exact FI_supported|].
  destruct (createCards_deck_length sample_env 2 ["food"; UNTAGGED] ["work"]
              empty_world FI FI_supported)
    as (r & w' & deck & Hrun & Hdeck & Hlen & _).
  exists r, deck. rewrite Hrun. split; [reflexivity|].
  split; [exact Hdeck | exact Hlen].
Defined.

Lemma createCards_deck_cards_witness :
  EN ∈ Language_values
  ∧ ∃ (r : LanguageRecord) (kept : list Card),
      (createCards sample_env 2 ["food"; UNTAGGED] ["work"] empty_world).1
      = Ok (Some r)
      ∧ deckOf r EN = Some (Some <$> kept)
      ∧ kept ⊆+ [mkCard ["food"] "apple"; mkCard [] "house";
                 mkCard ["food"; "travel"] "packed lunch"].
Proof.
  split; [exact EN_supported|].
  destruct (createCards_deck_cards sample_env 2 ["food"; UNTAGGED] ["work"]
              empty_world EN EN_supported)
    as (r & w' & deck & kept & Hrun & Hdeck & -> & Hsub & _).
  exists r, kept. rewrite Hrun. split; [reflexivity|].
  split; [exact Hdeck | exact Hsub].
Defined.

Lemma fetchAndFilterCards_success_witness :
  respond sample_env EN = JsonBody (Some sample_en)
  ∧ ∃ shuffled,
      fetchAndFilterCards sample_env EN ["travel"] [] 7%N empty_world
      = (Ok shuffled, empty_world)
      ∧ shuffled ≡ₚ [mkCard ["travel"] "train";
                     mkCard ["food"; "travel"] "packed lunch"].
Proof.
  split; [reflexivity|].
  destruct (fetchAndFilterCards_success sample_env EN ["travel"] [] 7%N
              empty_world sample_en eq_refl)
    as (shuffled & Hrun & Hperm & _).
  exists shuffled. split; [exact Hrun | exact Hperm].
Defined.

Lemma loadCards_then_getStoredCards_witness :
  (loadCards sample_env ["food"; UNTAGGED] ["work"] empty_world).1 = Ok 3%N
  ∧ ∃ (deck : Deck) (card : Card),
      (getStoredCards EN
         (loadCards sample_env ["food"; UNTAGGED] ["work"] empty_world).2).1
      = Ok (Some deck)
      ∧ deck !! 2 = Some (Some card).
Proof.
  split; [reflexivity|].
  destruct (loadCards_then_getStoredCards sample_env ["food"; UNTAGGED]
              ["work"] empty_world EN 3%N 2 EN_supported eq_refl eq_refl)
    as (deck & card & Hrun & Hslot & _).
  exists deck, card. rewrite Hrun. split; [reflexivity | exact Hslot].
Defined.

Lemma loadSingleCard_slot_witness :
  deckOf (languageData uneven_world) FI = Some []
  ∧ freshCard fi_only_env ["work"] [] FI = Some (mkCard ["work"] "kokous")
  ∧ ∃ after : Deck,
      deckOf (languageData
                (loadSingleCard fi_only_env 2 ["work"] [] uneven_world).2) FI
      = Some after
      ∧ after !! 2 = Some (Some (mkCard ["work"] "kokous"))
      ∧ length after = 3.
Proof.
  split; [reflexivity|]. split; [reflexivity|].
  destruct (loadSingleCard_slot fi_only_env 2 ["work"] [] uneven_world FI []
              (mkCard ["work"] "kokous") eq_refl eq_refl eq_refl)
    as (after & Hafter & Hslot & _ & _ & Hlen).
  exists after. split; [exact Hafter|]. split; [exact Hslot | exact Hlen].
Defined.

Lemma loadSingleCard_beyond_end_witness :
  deckOf (languageData
            (loadSingleCard fi_only_env 2 ["work"] [] uneven_world).2) FI
  = Some [None; None; Some (mkCard ["work"] "kokous")].
Proof.
  exact (loadSingleCard_beyond_end fi_only_env 2 ["work"] [] uneven_world FI
           [] (mkCard ["work"] "kokous") eq_refl eq_refl (Nat.le_0_l 2)).
Defined.

Lemma loadSingleCard_no_new_holes_witness :
  ∃ after : Deck,
    deckOf (languageData
              (loadSingleCard sample_env 2 ["work"] [] uneven_world).2) EN
    = Some after
    ∧ Forall is_Some after.
Proof.
  apply (loadSingleCard_no_new_holes sample_env 2 ["work"] [] uneven_world EN
           [Some (mkCard [] "house"); Some (mkCard ["travel"] "train")]).
  - reflexivity.
  - repeat constructor; eexists; reflexivity.
  - simpl. lia.
Defined.

Lemma loadCards_then_loadSingleCard_witness :
  (loadCards sample_env ["food"; UNTAGGED] ["work"] empty_world).1 = Ok 3%N
  ∧ ∃ loaded refreshed : Deck,
      deckOf (languageData
                (loadSingleCard fi_only_env 1 ["work"] []
                   (loadCards sample_env ["food"; UNTAGGED] ["work"]
                      empty_world).2).2) FI
      = Some refreshed
      ∧ length refreshed = length loaded
      ∧ Forall is_Some refreshed.
Proof.
  split; [reflexivity|].
  destruct (loadCards_then_loadSingleCard sample_env fi_only_env
              ["food"; UNTAGGED] ["work"] ["work"] [] empty_world FI 3%N 1
              FI_supported eq_refl eq_refl)
    as (loaded & refreshed & _ & Hafter & Hlen & Hfull & _).
  exists loaded, refreshed. split; [exact Hafter|].
  split; [exact Hlen | exact Hfull].
Defined.


Lemma loadCards_count_witness :
  (∀ value, writeError empty_world value = None)
  ∧ (loadCards sample_env ["food"; UNTAGGED] ["work"] empty_world).1
    = Ok 3%N.
Proof.
  split; [intros value; reflexivity|].
  destruct (loadCards_count sample_env ["food"; UNTAGGED] ["work"]
              empty_world (λ _, eq_refl)) as [Hrun _].
  rewrite Hrun. reflexivity.
Defined.

Lemma getStoredLanguage_region_witness :
  getStoredLanguage sample_env empty_world = (Ok "fi", empty_world).
Proof.
  apply (getStoredLanguage_region sample_env "fi" "FI" empty_world).
  - exact FI_supported.
  - reflexivity.
  - reflexivity.
Defined.
